(** * pubsub: a publish/subscribe router over a tree of topics

    Shallow embedding of [pubsub/pubsub.go].  The router is the tree of
    [router[T]] values; a channel is known to it only by its identity (it
    is the key of the [subscribers] map), so a handle is a number and what
    the router does to a channel (a send inside [select]/[default], a
    [close]) is recorded as an event.  A separate, small model of channels
    says what those events do to the receiving side. *)

From stdpp Require Import gmap strings list fin_maps.

Set Warnings "-register-all,-clear-no-such-hyp".

(** ** Data *)

(** [chan<- T] as a map key: the identity of the channel. *)
Definition handle := nat.

(** [type router[T] struct { subscribers map[chan<- T]struct{};
    topics map[string]router[T] }].  A [router[T]] stored in [topics] is a
    struct of two map references; every node gets its two maps from its
    own [make] calls, so no map is shared between two nodes and the store
    is a tree. *)
Inductive router : Type :=
  Router { subscribers : gset handle; topics : gmap string router }.

(** [router[T]{subscribers: make(...), topics: make(...)}] *)
Definition new_router : router := Router ∅ ∅.

(** [DuplicateSubscription]; the [nil] error is [None]. *)
Inductive error : Type := DuplicateSubscription.

(** [r2, ok := r.topics[t]] copies the struct, not the maps: what a method
    called on [r2] does to [r2.subscribers] and [r2.topics] is what the
    node stored under [t] holds afterwards. *)
Definition set_topic (r : router) (t : string) (r2 : router) : router :=
  Router (subscribers r) (<[t := r2]> (topics r)).

Section Pubsub.

Context {T : Type}.

(** What the router does to a subscriber channel. *)
Inductive event : Type :=
  | Send (ch : handle) (v : T)     (* select { case ch <- v: default: } *)
  | Close (ch : handle).           (* close(ch) *)

(** ** The router's methods *)

(** [func (r *router[T]) subscribe(ch chan<- T, topic ...string) error] *)
Fixpoint subscribe (r : router) (ch : handle) (topic : list string)
  : router * option error :=
  match topic with
  | [] =>
      if decide (ch ∈ subscribers r) then (r, Some DuplicateSubscription)
      else (Router ({[ch]} ∪ subscribers r) (topics r), None)
  | t :: rest =>
      let r2 := match topics r !! t with
                | Some r2 => r2
                | None => new_router
                end in
      let '(r2', err) := subscribe r2 ch rest in
      (set_topic r t r2', err)
  end.

(** [func (r *router[T]) unsubscribe(ch chan<- T, topics ...string)] *)
Fixpoint unsubscribe (r : router) (ch : handle) (tps : list string)
  : router * list event :=
  match tps with
  | [] => (Router (subscribers r ∖ {[ch]}) (topics r), [])
  | t :: rest =>
      match topics r !! t with
      | None => (r, [])
      | Some r2 =>
          let '(r2', evs) := unsubscribe r2 ch rest in
          (set_topic r t r2', evs)
      end
  end.

(** The loop [for ch := range r.subscribers { select {...} }].  Go visits
    the keys in an order it does not fix; [elements] is one such order,
    and no statement below depends on which. *)
Definition offer (r : router) (v : T) : list event :=
  (λ ch, Send ch v) <$> elements (subscribers r).

(** [func (r *router[T]) publish(v T, topics ...string)].  The result holds
    the sends in the order the code reaches them: those of a node before
    those of its child.  A send on a closed channel panics and ends the
    call there; [exec] and [performed] below account for that. *)
Fixpoint publish (r : router) (v : T) (tps : list string)
  : router * list event :=
  match tps with
  | [] => (r, offer r v)
  | t :: rest =>
      match topics r !! t with
      | None => (r, offer r v)
      | Some r2 =>
          let '(r2', evs) := publish r2 v rest in
          (set_topic r t r2', offer r v ++ evs)
      end
  end.

(** One turn of the first loop of [close]: skip a channel already in
    [closed], otherwise record it and close it. *)
Definition close_subscriber (st : gset handle * list event) (ch : handle)
  : gset handle * list event :=
  if decide (ch ∈ st.1) then st
  else ({[ch]} ∪ st.1, st.2 ++ [Close ch]).

(** [func (r *router[T]) close(closed map[chan<- T]struct{})]; the state is
    the [closed] map, which every call shares, and the events so far, in
    the order the code reaches them: the handles of a node before its
    children.  [close(ch)] panics on a nil or closed channel and ends the
    call there; [exec] and [performed] below account for that. *)
Fixpoint close (r : router) (st : gset handle * list event)
  : gset handle * list event :=
  let st1 := foldl close_subscriber st (elements (subscribers r)) in
  map_fold (λ _ r2 st2, close r2 st2) st1 (topics r).

(** ** The broker loop *)

(** The three commands [Process] receives on its channels. *)
Inductive command : Type :=
  | CmdPublish (v : T) (topic : list string)
  | CmdSubscribe (ch : handle) (topic : list string)
  | CmdUnsubscribe (ch : handle) (topic : list string).

(** One [case] of the [select] in [Process], for a command. *)
Definition serve (rr : router) (c : command)
  : router * list event * option error :=
  match c with
  | CmdPublish v topic =>
      let '(rr', evs) := publish rr v topic in (rr', evs, None)
  | CmdSubscribe ch topic =>
      let '(rr', err) := subscribe rr ch topic in (rr', [], err)
  | CmdUnsubscribe ch topic =>
      let '(rr', evs) := unsubscribe rr ch topic in (rr', evs, None)
  end.

(** The commands taken before [exit] fires, in the order the loop took
    them. *)
Fixpoint serve_all (rr : router) (cs : list command) : router * list event :=
  match cs with
  | [] => (rr, [])
  | c :: cs' =>
      let '(rr1, evs1, _) := serve rr c in
      let '(rr2, evs2) := serve_all rr1 cs' in
      (rr2, evs1 ++ evs2)
  end.

(** [case <-exit: rr.close(make(map[chan<- T]struct{})); return] *)
Definition shutdown (rr : router) : list event := (close rr (∅, [])).2.

(** [func (cfg *config[T]) Process(exit <-chan struct{})] *)
Definition Process (cs : list command) : list event :=
  let '(rr, evs) := serve_all new_router cs in evs ++ shutdown rr.

(** ** Reading the tree *)

(** The node a path leads to, if every segment has one. *)
Fixpoint node_at (r : router) (path : list string) : option router :=
  match path with
  | [] => Some r
  | t :: rest =>
      match topics r !! t with
      | None => None
      | Some r2 => node_at r2 rest
      end
  end.

(** [ch] is in the subscriber set of the node at exactly [path]. *)
Definition registered (r : router) (path : list string) (ch : handle) : Prop :=
  ∃ n, node_at r path = Some n ∧ ch ∈ subscribers n.

Definition registeredb (r : router) (path : list string) (ch : handle) : bool :=
  match node_at r path with
  | Some n => bool_decide (ch ∈ subscribers n)
  | None => false
  end.

(** All prefixes of a path, the empty one first. *)
Fixpoint prefixes (path : list string) : list (list string) :=
  match path with
  | [] => [[]]
  | t :: rest => [] :: ((t ::.) <$> prefixes rest)
  end.

(** Every handle held by some node of the tree. *)
Fixpoint all_handles (r : router) : gset handle :=
  subscribers r ∪ map_fold (λ _ r2 acc, all_handles r2 ∪ acc) ∅ (topics r).

(** The number of nodes, the measure for induction on the tree. *)
Fixpoint router_size (r : router) : nat :=
  S (map_fold (λ _ r2 acc, router_size r2 + acc) 0 (topics r)).

(** How many sends to [ch] a list of events holds. *)
Fixpoint sends_to (ch : handle) (evs : list event) : nat :=
  match evs with
  | [] => 0
  | Send ch' _ :: evs' =>
      (if decide (ch' = ch) then 1 else 0) + sends_to ch evs'
  | Close _ :: evs' => sends_to ch evs'
  end.

(** How many closes of [ch] a list of events holds. *)
Fixpoint closes_of (ch : handle) (evs : list event) : nat :=
  match evs with
  | [] => 0
  | Close ch' :: evs' =>
      (if decide (ch' = ch) then 1 else 0) + closes_of ch evs'
  | Send _ _ :: evs' => closes_of ch evs'
  end.

(** ** Channels, as far as a sender sees them

    [ready] counts the values the channel takes without making the sender
    wait (free buffer slots, receivers already parked on it); [inbox] holds
    what was handed over. *)
Record chan : Type := Chan { inbox : list T; ready : nat; closed : bool }.

(** [select { case ch <- v: default: }].  A handle the store does not hold
    is the nil channel, which is never ready; a send on a closed channel
    panics ([None]). *)
Definition try_send (w : gmap handle chan) (ch : handle) (v : T)
  : option (gmap handle chan) :=
  match w !! ch with
  | None => Some w
  | Some c =>
      if closed c then None
      else match ready c with
           | 0 => Some w
           | S n => Some (<[ch := Chan (inbox c ++ [v]) n false]> w)
           end
  end.

(** [close(ch)]: panics on the nil channel and on a closed one. *)
Definition close_chan (w : gmap handle chan) (ch : handle)
  : option (gmap handle chan) :=
  match w !! ch with
  | None => None
  | Some c =>
      if closed c then None
      else Some (<[ch := Chan (inbox c) (ready c) true]> w)
  end.

Definition exec1 (w : gmap handle chan) (e : event) : option (gmap handle chan) :=
  match e with
  | Send ch v => try_send w ch v
  | Close ch => close_chan w ch
  end.

(** The events of a call, applied in order; [None] is a panic. *)
Fixpoint exec (w : gmap handle chan) (evs : list event)
  : option (gmap handle chan) :=
  match evs with
  | [] => Some w
  | e :: evs' =>
      match exec1 w e with
      | None => None
      | Some w1 => exec w1 evs'
      end
  end.

(** A channel after [k] sends of [v] inside [select]/[default]. *)
Definition after_sends (v : T) (k : nat) (c : chan) : chan :=
  Chan (inbox c ++ replicate (k `min` ready c) v)
       (ready c - k `min` ready c) (closed c).

(** A router to run the statements on: handle 1 at the root, at [a/b] and
    at [c]; handle 2 at [a]; handle 3 at [a/b]. *)
Definition sample : router :=
  Router {[1]}
    {[ "a" := Router {[2]} {[ "b" := Router {[1; 3]} ∅ ]};
       "c" := Router {[1]} ∅ ]}.

(** The channel an event is about. *)
Definition target (e : event) : handle :=
  match e with Send ch _ => ch | Close ch => ch end.

(** A channel is usable when the store holds it (it is not nil) and it has
    not been closed. *)
Definition usable (w : gmap handle chan) (ch : handle) : Prop :=
  ∃ c, w !! ch = Some c ∧ closed c = false.

(** The events of a call that are carried out from the store [w].  A
    panic ends the call where it happens, so they are the events before the
    first one that panics; the lists [publish] and [close] return are the
    operations in the order the code reaches them, and this says how far
    it gets. *)
Fixpoint performed (w : gmap handle chan) (evs : list event) : list event :=
  match evs with
  | [] => []
  | e :: evs' =>
      match exec1 w e with
      | None => []
      | Some w1 => e :: performed w1 evs'
      end
  end.

(** No handle registered at a prefix of [tps] is a channel that has been
    closed: the channels a publish at [tps] sends on. *)
Definition no_closed_subscriber (r : router) (tps : list string)
    (w : gmap handle chan) : Prop :=
  ∀ q ch c, q `prefix_of` tps → registered r q ch →
            w !! ch = Some c → closed c = false.

(** Channels for the sample router, all open: handle 1 has no room, handle
    2 room for one value, handle 3 for two. *)
Definition sample_open : gmap handle chan :=
  {[1 := Chan [] 0 false; 2 := Chan [] 1 false; 3 := Chan [] 2 false]}.

(** The same handles when the owner of handle 1 has closed it. *)
Definition sample_closed : gmap handle chan :=
  {[1 := Chan [] 3 true; 2 := Chan [] 1 false; 3 := Chan [] 1 false]}.

(** [st'] is [st] after closing, once each, the handles of [hs] that [st]
    had not closed yet. *)
Definition closes_to (hs : gset handle) (st st' : gset handle * list event)
  : Prop :=
  st'.1 = st.1 ∪ hs ∧
  ∃ l, st'.2 = st.2 ++ (Close <$> l) ∧ NoDup l ∧
       ∀ ch, ch ∈ l ↔ ch ∈ hs ∧ ch ∉ st.1.

(** Whether [ch] is registered at [path] can be computed. *)
#[global] Instance registered_dec (r : router) (path : list string)
    (ch : handle) : Decision (registered r path ch).
Proof.
  unfold registered. destruct (node_at r path) as [n|].
  - destruct (decide (ch ∈ subscribers n)) as [Hin|Hin].
    + left. eauto.
    + right. by intros (? & [= <-] & ?).
  - right. by intros (? & ? & ?).
Defined.


(** ** Paths and nodes *)

Lemma set_topic_same (r : router) (t : string) (r2 : router) :
  topics r !! t = Some r2 → set_topic r t r2 = r.
Proof.
  intros Hl. destruct r as [s ts]; unfold set_topic; simpl in *.
  f_equal. by apply insert_id.
Qed.

Lemma node_at_set_topic (r : router) (t t' : string) (r2 : router)
    (path : list string) :
  node_at (set_topic r t r2) (t' :: path) =
  if decide (t = t') then node_at r2 path else node_at r (t' :: path).
Proof.
  simpl. rewrite lookup_insert. by case_decide.
Qed.

Lemma registered_nil (r : router) (ch : handle) :
  registered r [] ch ↔ ch ∈ subscribers r.
Proof.
  unfold registered; simpl. split.
  - by intros (n & [= <-] & ?).
  - eauto.
Qed.

Lemma registered_cons (r : router) (t : string) (path : list string)
    (ch : handle) :
  registered r (t :: path) ch ↔
  ∃ r2, topics r !! t = Some r2 ∧ registered r2 path ch.
Proof.
  unfold registered; simpl. split.
  - intros (n & Hn & Hin). destruct (topics r !! t) as [r2|]; [|done]. eauto.
  - intros (r2 & -> & Hreg). done.
Qed.

Lemma registeredb_spec (r : router) (path : list string) (ch : handle) :
  registeredb r path ch = true ↔ registered r path ch.
Proof.
  unfold registeredb, registered. destruct (node_at r path) as [n|].
  - rewrite bool_decide_eq_true. split; [eauto|]. by intros (? & [= <-] & ?).
  - split; [done|]. by intros (? & ? & ?).
Qed.

Lemma new_router_unregistered (path : list string) (ch : handle) :
  ¬ registered new_router path ch.
Proof.
  destruct path as [|t path].
  - rewrite registered_nil. simpl. set_solver.
  - rewrite registered_cons. intros (r2 & Hl & _). simpl in Hl.
    by rewrite lookup_empty in Hl.
Qed.

(** ** subscribe *)

Lemma subscribe_error (r : router) (ch : handle) (topic : list string) :
  (subscribe r ch topic).2 =
  if decide (registered r topic ch) then Some DuplicateSubscription else None.
Proof.
  revert r. induction topic as [|t rest IH]; intros r; simpl.
  - destruct (decide (ch ∈ subscribers r)) as [Hin|Hin];
      destruct (decide (registered r [] ch)) as [Hr|Hr]; simpl; try done;
      rewrite registered_nil in Hr; done.
  - specialize (IH (match topics r !! t with Some r2 => r2 | None => new_router end)).
    destruct (subscribe _ ch rest) as [r2' err]; simpl in *. rewrite IH.
    destruct (topics r !! t) as [r2|] eqn:Hl.
    + destruct (decide (registered r2 rest ch)) as [H2|H2];
        destruct (decide (registered r (t :: rest) ch)) as [Hr|Hr]; try done.
      * exfalso. apply Hr. apply registered_cons. eauto.
      * exfalso. apply H2. apply registered_cons in Hr as (r3 & Hl3 & Hr3).
        congruence.
    + destruct (decide (registered new_router rest ch)) as [H2|H2].
      { by apply new_router_unregistered in H2. }
      destruct (decide (registered r (t :: rest) ch)) as [Hr|Hr]; [|done].
      apply registered_cons in Hr as (r3 & Hl3 & _). congruence.
Qed.

Lemma subscribe_duplicate_state (r : router) (ch : handle)
    (topic : list string) :
  registered r topic ch → (subscribe r ch topic).1 = r.
Proof.
  revert r. induction topic as [|t rest IH]; intros r Hreg; simpl.
  - apply registered_nil in Hreg. by rewrite decide_True.
  - apply registered_cons in Hreg as (r2 & Hl & Hreg). rewrite Hl.
    specialize (IH r2 Hreg). destruct (subscribe r2 ch rest) as [r2' err].
    simpl in *. subst r2'. by apply set_topic_same.
Qed.

Lemma subscribe_registers (r : router) (ch : handle) (topic : list string) :
  registered (subscribe r ch topic).1 topic ch.
Proof.
  revert r. induction topic as [|t rest IH]; intros r; simpl.
  - apply registered_nil. case_decide; simpl; set_solver.
  - specialize (IH (match topics r !! t with Some r2 => r2 | None => new_router end)).
    destruct (subscribe _ ch rest) as [r2' err]; simpl in *.
    apply registered_cons. exists r2'. split; [|done].
    simpl. by rewrite lookup_insert_eq.
Qed.

Lemma subscribe_keeps_nodes (r : router) (ch : handle)
    (topic path : list string) :
  is_Some (node_at r path) → is_Some (node_at (subscribe r ch topic).1 path).
Proof.
  revert r path. induction topic as [|t rest IH]; intros r path Hn; simpl.
  - case_decide; simpl; [done|]. by destruct path.
  - pose proof (IH (match topics r !! t with Some r2 => r2 | None => new_router end))
      as IH2.
    destruct (subscribe _ ch rest) as [r2' err]; simpl in *.
    destruct path as [|t' path]; [done|].
    rewrite node_at_set_topic. case_decide as Ht; [|done]. subst t'.
    simpl in Hn. destruct (topics r !! t) as [r2|]; [|by destruct Hn].
    by apply IH2.
Qed.

(** ** unsubscribe *)

Lemma unsubscribe_events (r : router) (ch : handle) (tps : list string) :
  (unsubscribe r ch tps).2 = [].
Proof.
  revert r. induction tps as [|t rest IH]; intros r; simpl; [done|].
  destruct (topics r !! t) as [r2|]; [|done].
  specialize (IH r2). by destruct (unsubscribe r2 ch rest).
Qed.

Lemma unsubscribe_unregistered (r : router) (ch : handle) (tps : list string) :
  ¬ registered r tps ch → (unsubscribe r ch tps).1 = r.
Proof.
  revert r. induction tps as [|t rest IH]; intros r Hreg; simpl.
  - rewrite registered_nil in Hreg. destruct r as [s ts]; simpl in *.
    f_equal. set_solver.
  - destruct (topics r !! t) as [r2|] eqn:Hl; [|done].
    assert (¬ registered r2 rest ch) as H2.
    { intros H2. apply Hreg, registered_cons. eauto. }
    specialize (IH r2 H2). destruct (unsubscribe r2 ch rest) as [r2' evs].
    simpl in *. subst r2'. by apply set_topic_same.
Qed.

Lemma unsubscribe_registered (r : router) (ch : handle) (tps : list string)
    (path : list string) (ch' : handle) :
  registered (unsubscribe r ch tps).1 path ch' ↔
  registered r path ch' ∧ ¬ (path = tps ∧ ch' = ch).
Proof.
  revert r path. induction tps as [|t rest IH]; intros r path; simpl.
  - destruct path as [|t' path].
    + rewrite !registered_nil. simpl. set_solver.
    + rewrite !registered_cons. simpl. naive_solver.
  - destruct (topics r !! t) as [r2|] eqn:Hl; simpl.
    + specialize (IH r2). destruct (unsubscribe r2 ch rest) as [r2' evs].
      simpl in *. destruct path as [|t' path].
      * rewrite !registered_nil. simpl. naive_solver.
      * rewrite !registered_cons. simpl.
        destruct (decide (t = t')) as [<-|Hne].
        -- rewrite lookup_insert_eq, Hl. split.
           ++ intros (r3 & [= <-] & Hr). apply IH in Hr as [Hr Hn].
              split; [eauto|]. intros [[= ->] ->]. by apply Hn.
           ++ intros [(r3 & [= <-] & Hr) Hn]. eexists; split; [done|].
              apply IH. split; [done|]. intros [-> ->]. by apply Hn.
        -- rewrite lookup_insert_ne by done. split.
           ++ intros Hr. split; [done|]. intros [[= -> ->] _]. done.
           ++ by intros [Hr _].
    + split; [|by intros [? _]]. intros Hr. split; [done|].
      intros [-> ->]. apply registered_cons in Hr as (r3 & Hl3 & _).
      congruence.
Qed.

Lemma unsubscribe_keeps_nodes (r : router) (ch : handle)
    (tps path : list string) :
  is_Some (node_at r path) → is_Some (node_at (unsubscribe r ch tps).1 path).
Proof.
  revert r path. induction tps as [|t rest IH]; intros r path Hn; simpl.
  - by destruct path.
  - destruct (topics r !! t) as [r2|] eqn:Hl; [|done].
    specialize (IH r2). destruct (unsubscribe r2 ch rest) as [r2' evs].
    simpl in *. destruct path as [|t' path]; [done|].
    rewrite node_at_set_topic. case_decide as Ht; [|done]. subst t'.
    simpl in Hn. rewrite Hl in Hn. by apply IH.
Qed.

(** ** publish *)

Lemma publish_state (r : router) (v : T) (tps : list string) :
  (publish r v tps).1 = r.
Proof.
  revert r. induction tps as [|t rest IH]; intros r; simpl; [done|].
  destruct (topics r !! t) as [r2|] eqn:Hl; [|done].
  specialize (IH r2). destruct (publish r2 v rest) as [r2' evs].
  simpl in *. subst r2'. by apply set_topic_same.
Qed.

Lemma sends_to_app (ch : handle) (evs1 evs2 : list event) :
  sends_to ch (evs1 ++ evs2) = sends_to ch evs1 + sends_to ch evs2.
Proof.
  induction evs1 as [|[ch' v|ch'] evs1 IH]; simpl; [done| |done].
  rewrite IH. lia.
Qed.

Lemma closes_of_app (ch : handle) (evs1 evs2 : list event) :
  closes_of ch (evs1 ++ evs2) = closes_of ch evs1 + closes_of ch evs2.
Proof.
  induction evs1 as [|[ch' v|ch'] evs1 IH]; simpl; [done|done|].
  rewrite IH. lia.
Qed.

Lemma sends_to_fmap_Send (ch : handle) (v : T) (l : list handle) :
  NoDup l →
  sends_to ch ((λ ch', Send ch' v) <$> l) = if decide (ch ∈ l) then 1 else 0.
Proof.
  induction 1 as [|ch' l Hnin Hnd IH].
  - destruct (decide (ch ∈ [])) as [Hin|Hin]; [|done].
    by apply elem_of_nil in Hin.
  - rewrite fmap_cons. cbn [sends_to]. rewrite IH.
    destruct (decide (ch' = ch)) as [->|Hne];
      destruct (decide (ch ∈ l)) as [Hin|Hin];
      destruct (decide (ch ∈ _ :: l)) as [Hc|Hc]; try done;
      rewrite elem_of_cons in Hc; naive_solver.
Qed.

Lemma sends_to_offer (r : router) (v : T) (ch : handle) :
  sends_to ch (offer r v) = if decide (ch ∈ subscribers r) then 1 else 0.
Proof.
  unfold offer. rewrite sends_to_fmap_Send by apply NoDup_elements.
  destruct (decide (ch ∈ subscribers r)) as [Hin|Hin].
  - rewrite decide_True; [done|]. by apply elem_of_elements.
  - rewrite decide_False; [done|]. by rewrite elem_of_elements.
Qed.

Lemma closes_of_offer (r : router) (v : T) (ch : handle) :
  closes_of ch (offer r v) = 0.
Proof. unfold offer. by induction (elements (subscribers r)). Qed.

Lemma elem_of_offer (r : router) (v v' : T) (ch : handle) :
  Send ch v' ∈ offer r v ↔ v' = v ∧ ch ∈ subscribers r.
Proof.
  unfold offer. rewrite list_elem_of_fmap. split.
  - intros (ch' & [= -> ->] & Hin). by apply elem_of_elements in Hin.
  - intros [-> Hin]. exists ch. by rewrite elem_of_elements.
Qed.

Lemma elem_of_prefixes (path q : list string) :
  q ∈ prefixes path ↔ q `prefix_of` path.
Proof.
  revert q. induction path as [|t rest IH]; intros q; simpl.
  - rewrite list_elem_of_singleton. split.
    + by intros ->.
    + apply prefix_nil_inv.
  - rewrite elem_of_cons, list_elem_of_fmap. split.
    + intros [->|(q' & -> & Hq')]; [apply prefix_nil|].
      apply prefix_cons. by apply IH.
    + intros Hp. destruct q as [|t' q']; [by left|right].
      pose proof (prefix_cons_inv_1 _ _ _ _ Hp) as ->.
      apply prefix_cons_inv_2 in Hp. exists q'. by rewrite IH.
Qed.

Lemma NoDup_prefixes (path : list string) : NoDup (prefixes path).
Proof.
  induction path as [|t rest IH]; simpl.
  - apply NoDup_singleton.
  - apply NoDup_cons. split.
    + rewrite list_elem_of_fmap. by intros (q & ? & _).
    + apply NoDup_fmap_2; [|done]. by intros q1 q2 [= ->].
Qed.

Lemma registrations_under (r : router) (t : string) (ch : handle)
    (qs : list (list string)) :
  length (filter (λ q, registered r q ch) ((t ::.) <$> qs)) =
  match topics r !! t with
  | Some r2 => length (filter (λ q, registered r2 q ch) qs)
  | None => 0
  end.
Proof.
  induction qs as [|q qs IH].
  - by destruct (topics r !! t).
  - rewrite fmap_cons, (filter_cons _ (t :: q)).
    destruct (topics r !! t) as [r2|] eqn:Hl.
    + rewrite (filter_cons _ q).
      destruct (decide (registered r (t :: q) ch)) as [Hr|Hr];
        destruct (decide (registered r2 q ch)) as [H2|H2]; simpl;
        rewrite ?IH; try done.
      * apply registered_cons in Hr as (r3 & Hl3 & Hr3).
        rewrite Hl in Hl3. injection Hl3 as <-. done.
      * exfalso. apply Hr, registered_cons. eauto.
    + rewrite decide_False; [done|].
      intros (r3 & Hl3 & _)%registered_cons. congruence.
Qed.

Lemma publish_sends_to (r : router) (v : T) (tps : list string) (ch : handle) :
  sends_to ch (publish r v tps).2 =
  length (filter (λ q, registered r q ch) (prefixes tps)).
Proof.
  assert (∀ r', sends_to ch (offer r' v) =
                length (filter (λ q, registered r' q ch) [[]])) as Hroot.
  { intros r'. rewrite sends_to_offer, filter_cons, filter_nil.
    destruct (decide (ch ∈ subscribers r')) as [Hin|Hin].
    - rewrite decide_True; [done|]. by apply registered_nil.
    - rewrite decide_False; [done|]. by rewrite registered_nil. }
  revert r. induction tps as [|t rest IH]; intros r; cbn [publish prefixes].
  - apply Hroot.
  - change ([] :: (cons t <$> prefixes rest))
      with ([[]] ++ (cons t <$> prefixes rest)).
    rewrite filter_app, length_app, registrations_under, <-Hroot.
    destruct (topics r !! t) as [r2|] eqn:Hl.
    + specialize (IH r2). destruct (publish r2 v rest) as [r2' evs].
      cbn [snd] in *. by rewrite sends_to_app, IH.
    + cbn [snd]. lia.
Qed.

Lemma publish_closes_of (r : router) (v : T) (tps : list string) (ch : handle) :
  closes_of ch (publish r v tps).2 = 0.
Proof.
  revert r. induction tps as [|t rest IH]; intros r; simpl.
  - apply closes_of_offer.
  - destruct (topics r !! t) as [r2|]; [|apply closes_of_offer].
    specialize (IH r2). destruct (publish r2 v rest) as [r2' evs].
    simpl in *. by rewrite closes_of_app, closes_of_offer, IH.
Qed.

Lemma elem_of_publish (r : router) (v v' : T) (tps : list string)
    (ch : handle) :
  Send ch v' ∈ (publish r v tps).2 ↔
  v' = v ∧ ∃ q, q `prefix_of` tps ∧ registered r q ch.
Proof.
  revert r. induction tps as [|t rest IH]; intros r; simpl.
  - rewrite elem_of_offer, <-registered_nil. split.
    + intros [-> Hr]. eauto.
    + intros [-> (q & ->%prefix_nil_inv & Hr)]. done.
  - destruct (topics r !! t) as [r2|] eqn:Hl.
    + specialize (IH r2). destruct (publish r2 v rest) as [r2' evs].
      simpl in *. rewrite elem_of_app, elem_of_offer, IH, <-registered_nil.
      split.
      * intros [[-> Hr]|[-> (q & Hq & Hr)]]; (split; [done|]).
        -- exists []. split; [apply prefix_nil|done].
        -- exists (t :: q). split; [by apply prefix_cons|].
           apply registered_cons. eauto.
      * intros [-> (q & Hq & Hr)]. destruct q as [|t' q]; [by left|right].
        pose proof (prefix_cons_inv_1 _ _ _ _ Hq) as ->.
        apply prefix_cons_inv_2 in Hq.
        apply registered_cons in Hr as (r3 & Hl3 & Hr3).
        assert (r3 = r2) as -> by congruence. eauto.
    + simpl. rewrite elem_of_offer, <-registered_nil. split.
      * intros [-> Hr]. split; [done|]. exists []. split; [apply prefix_nil|done].
      * intros [-> (q & Hq & Hr)]. destruct q as [|t' q]; [done|].
        pose proof (prefix_cons_inv_1 _ _ _ _ Hq) as ->.
        apply registered_cons in Hr as (r3 & Hl3 & _). congruence.
Qed.

(** ** Induction on the tree *)

Lemma router_size_topic (r : router) (t : string) (r2 : router) :
  topics r !! t = Some r2 → router_size r2 < router_size r.
Proof.
  destruct r as [s ts]; simpl. intros Hl.
  rewrite map_fold_foldr. apply elem_of_map_to_list in Hl.
  induction (map_to_list ts) as [|[t' r'] l IH]; simpl.
  - by apply elem_of_nil in Hl.
  - apply elem_of_cons in Hl as [[= <- <-]|Hl]; [lia|].
    specialize (IH Hl). lia.
Qed.

Lemma router_tree_ind (P : router → Prop) :
  (∀ r, (∀ t r2, topics r !! t = Some r2 → P r2) → P r) → ∀ r, P r.
Proof.
  intros Hstep r. remember (router_size r) as n eqn:Hn. revert r Hn.
  induction (lt_wf n) as [n _ IH]. intros r ->.
  apply Hstep. intros t r2 Hl. eapply IH; [|done].
  by eapply router_size_topic.
Qed.

Lemma all_handles_unfold (r : router) :
  all_handles r =
  subscribers r ∪
  foldr (λ tr acc, all_handles tr.2 ∪ acc) ∅ (map_to_list (topics r)).
Proof.
  destruct r as [s ts]; simpl. f_equal. rewrite map_fold_foldr.
  induction (map_to_list ts) as [|[t' r'] l IH]; simpl; [done|].
  by rewrite IH.
Qed.

Lemma close_unfold (r : router) (st : gset handle * list event) :
  close r st =
  foldr (λ tr st2, close tr.2 st2)
        (foldl close_subscriber st (elements (subscribers r)))
        (map_to_list (topics r)).
Proof.
  destruct r as [s ts]; simpl. rewrite map_fold_foldr.
  generalize (foldl close_subscriber st (elements s)). intros st1.
  induction (map_to_list ts) as [|[t' r'] l IH]; simpl; [done|].
  by rewrite IH.
Qed.

Lemma elem_of_all_handles (r : router) (ch : handle) :
  ch ∈ all_handles r ↔ ∃ path, registered r path ch.
Proof.
  induction r as [r IH] using router_tree_ind.
  rewrite all_handles_unfold, elem_of_union.
  assert (ch ∈ foldr (λ tr acc, all_handles tr.2 ∪ acc) ∅
                 (map_to_list (topics r)) ↔
          ∃ t r2, (t, r2) ∈ map_to_list (topics r) ∧ ch ∈ all_handles r2)
    as ->.
  { induction (map_to_list (topics r)) as [|[t' r'] l IHl]; simpl.
    - split; [set_solver|]. intros (t & r2 & Hin & _).
      by apply elem_of_nil in Hin.
    - rewrite elem_of_union, IHl. split.
      + intros [Hin|(t & r2 & Hin & Hch)].
        * exists t', r'. split; [apply elem_of_cons; by left|done].
        * exists t, r2. split; [apply elem_of_cons; by right|done].
      + intros (t & r2 & Hin & Hch).
        apply elem_of_cons in Hin as [[= -> ->]|Hin]; [by left|right; eauto]. }
  split.
  - intros [Hin|(t & r2 & Hin & Hch)].
    + exists []. by apply registered_nil.
    + apply elem_of_map_to_list in Hin.
      apply (IH t r2 Hin) in Hch as [path Hreg].
      exists (t :: path). apply registered_cons. eauto.
  - intros [[|t path] Hreg].
    + left. by apply registered_nil.
    + right. apply registered_cons in Hreg as (r2 & Hl & Hreg).
      exists t, r2. split; [by apply elem_of_map_to_list|].
      apply (IH t r2 Hl). eauto.
Qed.

(** ** close *)

Lemma closes_to_nothing (st : gset handle * list event) : closes_to ∅ st st.
Proof.
  split; [set_solver|]. exists []. split; [by rewrite app_nil_r|].
  split; [apply NoDup_nil_2|]. intros ch. rewrite elem_of_nil. set_solver.
Qed.

Lemma closes_to_then (hs1 hs2 : gset handle)
    (st st1 st2 : gset handle * list event) :
  closes_to hs1 st st1 → closes_to hs2 st1 st2 →
  closes_to (hs1 ∪ hs2) st st2.
Proof.
  intros [Hc1 (l1 & He1 & Hnd1 & Hl1)] [Hc2 (l2 & He2 & Hnd2 & Hl2)].
  split; [rewrite Hc2, Hc1; set_solver|].
  exists (l1 ++ l2). split; [|split].
  - by rewrite He2, He1, fmap_app, app_assoc.
  - apply NoDup_app. split; [done|]. split; [|done].
    intros ch Hin1 Hin2. apply Hl1 in Hin1. apply Hl2 in Hin2.
    rewrite Hc1 in Hin2. set_solver.
  - intros ch. rewrite elem_of_app, Hl1, Hl2, Hc1.
    destruct (decide (ch ∈ hs1)); set_solver.
Qed.

Lemma close_subscriber_closes (st : gset handle * list event) (ch : handle) :
  closes_to {[ch]} st (close_subscriber st ch).
Proof.
  unfold close_subscriber. destruct (decide (ch ∈ st.1)) as [Hin|Hin].
  - split; [set_solver|]. exists []. split; [by rewrite app_nil_r|].
    split; [apply NoDup_nil_2|]. intros ch'. rewrite elem_of_nil. set_solver.
  - split; [simpl; set_solver|]. exists [ch]. split; [done|].
    split; [apply NoDup_singleton|]. intros ch'.
    rewrite list_elem_of_singleton. set_solver.
Qed.

Lemma close_subscribers_closes (l : list handle)
    (st : gset handle * list event) :
  closes_to (list_to_set l) st (foldl close_subscriber st l).
Proof.
  revert st. induction l as [|ch l IH]; intros st; simpl.
  - apply closes_to_nothing.
  - eapply closes_to_then; [apply close_subscriber_closes|apply IH].
Qed.

Lemma close_closes (r : router) (st : gset handle * list event) :
  closes_to (all_handles r) st (close r st).
Proof.
  revert st. induction r as [r IH] using router_tree_ind. intros st.
  rewrite close_unfold, all_handles_unfold.
  pose proof (close_subscribers_closes (elements (subscribers r)) st) as H0.
  rewrite list_to_set_elements_L in H0.
  assert (∀ t r2, (t, r2) ∈ map_to_list (topics r) →
            ∀ st', closes_to (all_handles r2) st' (close r2 st')) as IHl.
  { intros t r2 Hin. apply (IH t r2). by apply elem_of_map_to_list. }
  clear IH. revert H0 IHl.
  generalize (foldl close_subscriber st (elements (subscribers r))).
  intros st1 H0.
  induction (map_to_list (topics r)) as [|[t' r'] l IHind]; intros IHl; simpl.
  - by rewrite (right_id_L ∅ (∪)).
  - assert (subscribers r ∪
              (all_handles r' ∪ foldr (λ tr acc, all_handles tr.2 ∪ acc) ∅ l) =
            (subscribers r ∪ foldr (λ tr acc, all_handles tr.2 ∪ acc) ∅ l) ∪
              all_handles r') as -> by set_solver.
    eapply closes_to_then.
    + apply IHind. intros t r2 Hin. apply (IHl t r2).
      apply elem_of_cons. by right.
    + apply (IHl t' r'). apply elem_of_cons. by left.
Qed.

Lemma closes_of_fmap_Close (ch : handle) (l : list handle) :
  NoDup l →
  closes_of ch (Close <$> l) = if decide (ch ∈ l) then 1 else 0.
Proof.
  induction 1 as [|ch' l Hnin Hnd IH].
  - destruct (decide (ch ∈ [])) as [Hin|Hin]; [|done].
    by apply elem_of_nil in Hin.
  - rewrite fmap_cons. cbn [closes_of]. rewrite IH.
    destruct (decide (ch' = ch)) as [->|Hne];
      destruct (decide (ch ∈ l)) as [Hin|Hin];
      destruct (decide (ch ∈ _ :: l)) as [Hc|Hc]; try done;
      rewrite elem_of_cons in Hc; naive_solver.
Qed.

Lemma sends_to_fmap_Close (ch : handle) (l : list handle) :
  sends_to ch (Close <$> l) = 0.
Proof. by induction l. Qed.

Lemma shutdown_closes_of (r : router) (ch : handle) :
  closes_of ch (shutdown r) = if decide (ch ∈ all_handles r) then 1 else 0.
Proof.
  unfold shutdown.
  destruct (close_closes r (∅, [])) as [_ (l & -> & Hnd & Hl)]. simpl.
  rewrite closes_of_fmap_Close by done.
  destruct (decide (ch ∈ l)) as [Hin|Hin];
    destruct (decide (ch ∈ all_handles r)) as [Ha|Ha]; try done.
  - apply Hl in Hin as [? _]. done.
  - exfalso. apply Hin, Hl. set_solver.
Qed.

(** ** What the receiving side sees of a publish *)

Lemma publish_only_sends (r : router) (v : T) (tps : list string) :
  Forall (λ e, ∃ ch, e = Send ch v) (publish r v tps).2.
Proof.
  apply Forall_forall. intros [ch v'|ch] Hin.
  - apply elem_of_publish in Hin as [-> _]. eauto.
  - exfalso. pose proof (publish_closes_of r v tps ch) as H0.
    induction (publish r v tps).2 as [|e evs IH]; [by apply elem_of_nil in Hin|].
    apply elem_of_cons in Hin as [<-|Hin].
    + simpl in H0. rewrite decide_True in H0 by done. lia.
    + apply IH; [done|]. destruct e as [ch1 v1|ch1]; simpl in H0; [done|lia].
Qed.

Lemma after_sends_full (v : T) (k : nat) (c : chan) :
  ready c = 0 → after_sends v k c = c.
Proof.
  destruct c as [i n cl]; simpl. intros ->. unfold after_sends; simpl.
  rewrite Nat.min_0_r. simpl. by rewrite app_nil_r.
Qed.

Lemma after_sends_none (v : T) (c : chan) : after_sends v 0 c = c.
Proof.
  destruct c as [i n cl]. unfold after_sends; simpl.
  by rewrite app_nil_r, Nat.sub_0_r.
Qed.

Lemma after_sends_next (v : T) (k : nat) (i : list T) (n : nat) :
  after_sends v k (Chan (i ++ [v]) n false) =
  after_sends v (S k) (Chan i (S n) false).
Proof.
  unfold after_sends; simpl. by rewrite <-app_assoc.
Qed.

(** ** The broker loop *)

Lemma serve_keeps_nodes (rr : router) (c : command) (path : list string) :
  is_Some (node_at rr path) → is_Some (node_at (serve rr c).1.1 path).
Proof.
  intros Hn. destruct c as [v topic|ch topic|ch topic]; simpl.
  - pose proof (publish_state rr v topic) as Hp.
    destruct (publish rr v topic) as [rr' evs]; simpl in *. by subst rr'.
  - pose proof (subscribe_keeps_nodes rr ch topic path Hn) as Hs.
    by destruct (subscribe rr ch topic) as [rr' err].
  - pose proof (unsubscribe_keeps_nodes rr ch topic path Hn) as Hu.
    by destruct (unsubscribe rr ch topic) as [rr' evs].
Qed.

Lemma serve_closes_of (rr : router) (c : command) (ch : handle) :
  closes_of ch (serve rr c).1.2 = 0.
Proof.
  destruct c as [v topic|ch' topic|ch' topic]; simpl.
  - pose proof (publish_closes_of rr v topic ch) as Hp.
    by destruct (publish rr v topic) as [rr' evs].
  - by destruct (subscribe rr ch' topic) as [rr' err].
  - pose proof (unsubscribe_events rr ch' topic) as Hu.
    destruct (unsubscribe rr ch' topic) as [rr' evs]; simpl in *. by subst evs.
Qed.

Lemma serve_all_keeps_nodes (cs : list command) (rr : router)
    (path : list string) :
  is_Some (node_at rr path) → is_Some (node_at (serve_all rr cs).1 path).
Proof.
  revert rr. induction cs as [|c cs IH]; intros rr Hn; simpl; [done|].
  pose proof (serve_keeps_nodes rr c path Hn) as H1.
  destruct (serve rr c) as [[rr1 evs1] err]; simpl in H1.
  specialize (IH rr1 H1). by destruct (serve_all rr1 cs) as [rr2 evs2].
Qed.

Lemma serve_all_closes_of (cs : list command) (rr : router) (ch : handle) :
  closes_of ch (serve_all rr cs).2 = 0.
Proof.
  revert rr. induction cs as [|c cs IH]; intros rr; simpl; [done|].
  pose proof (serve_closes_of rr c ch) as H1.
  destruct (serve rr c) as [[rr1 evs1] err]; simpl in H1.
  specialize (IH rr1). destruct (serve_all rr1 cs) as [rr2 evs2]; simpl in *.
  rewrite closes_of_app. lia.
Qed.

(** * The claims *)

(** C2: [subscribe] returns [DuplicateSubscription] when the handle is
    already registered at exactly that path and [nil] otherwise, whatever
    other paths the handle is registered at; a second subscribe of the same
    handle at the same path is a duplicate. *)
Theorem subscribe_duplicate_iff (r : router) (ch : handle)
    (topic : list string) :
  (registered r topic ch →
   (subscribe r ch topic).2 = Some DuplicateSubscription) ∧
  (¬ registered r topic ch → (subscribe r ch topic).2 = None) ∧
  (∀ q, q ≠ topic → registered r q ch → ¬ registered r topic ch →
        (subscribe r ch topic).2 = None) ∧
  (subscribe (subscribe r ch topic).1 ch topic).2 = Some DuplicateSubscription.
Proof.
  repeat split.
  - intros Hr. rewrite subscribe_error. by rewrite decide_True.
  - intros Hr. rewrite subscribe_error. by rewrite decide_False.
  - intros q _ _ Hr. rewrite subscribe_error. by rewrite decide_False.
  - rewrite subscribe_error. rewrite decide_True; [done|].
    apply subscribe_registers.
Qed.

(** C5: [unsubscribe] never fails and is idempotent: when the path leads to
    no node, or the handle is not in the subscriber set of the node it
    leads to, the router is left as it was (and nothing is done to any
    channel); unsubscribing a second time changes nothing more. *)
Theorem unsubscribe_total_idempotent (r : router) (ch : handle)
    (tps : list string) :
  (node_at r tps = None → unsubscribe r ch tps = (r, [])) ∧
  (∀ n, node_at r tps = Some n → ch ∉ subscribers n →
        unsubscribe r ch tps = (r, [])) ∧
  unsubscribe (unsubscribe r ch tps).1 ch tps = ((unsubscribe r ch tps).1, []).
Proof.
  assert (∀ r', ¬ registered r' tps ch → unsubscribe r' ch tps = (r', []))
    as Hnoop.
  { intros r' Hr. pose proof (unsubscribe_unregistered r' ch tps Hr) as H1.
    pose proof (unsubscribe_events r' ch tps) as H2.
    destruct (unsubscribe r' ch tps); simpl in *. by subst. }
  split; [|split].
  - intros Hn. apply Hnoop. intros (n & Hn' & _). congruence.
  - intros n Hn Hin. apply Hnoop. intros (n' & Hn' & Hin'). congruence.
  - apply Hnoop. rewrite unsubscribe_registered. naive_solver.
Qed.

(** C6: nodes are never destroyed: the node a subscribe walks to exists
    after it and after any further commands, and any node that exists still
    exists after any sequence of publish, subscribe and unsubscribe
    commands, its subscriber set empty or not. *)
Theorem nodes_never_destroyed (r : router) (cs : list command) :
  (∀ ch topic,
     is_Some (node_at (serve_all (subscribe r ch topic).1 cs).1 topic)) ∧
  (∀ path, is_Some (node_at r path) →
           is_Some (node_at (serve_all r cs).1 path)).
Proof.
  split.
  - intros ch topic. apply serve_all_keeps_nodes.
    destruct (subscribe_registers r ch topic) as (n & Hn & _). eauto.
  - intros path. apply serve_all_keeps_nodes.
Qed.

(** C7: [unsubscribe] closes nothing and removes exactly the registration
    of the handle at the given path; no command closes a channel, so the
    closes of a whole run of the broker are those of its shutdown. *)
Theorem unsubscribe_never_closes (r : router) (ch : handle)
    (tps : list string) :
  (unsubscribe r ch tps).2 = [] ∧
  (∀ path ch', registered (unsubscribe r ch tps).1 path ch' ↔
               registered r path ch' ∧ ¬ (path = tps ∧ ch' = ch)) ∧
  (∀ cs ch', closes_of ch' (serve_all r cs).2 = 0) ∧
  (∀ cs ch', closes_of ch' (Process cs) =
             closes_of ch' (shutdown (serve_all new_router cs).1)).
Proof.
  split; [apply unsubscribe_events|]. split; [|split].
  - intros path ch'. apply unsubscribe_registered.
  - intros cs ch'. apply serve_all_closes_of.
  - intros cs ch'. unfold Process.
    pose proof (serve_all_closes_of cs new_router ch') as H0.
    destruct (serve_all new_router cs) as [rr evs]; simpl in *.
    rewrite closes_of_app. lia.
Qed.

(** C8: a subscribe that returns an error leaves the router exactly as it
    was: no node is created and no subscriber set changes. *)
Theorem subscribe_error_atomic (r : router) (ch : handle)
    (topic : list string) (e : error) :
  (subscribe r ch topic).2 = Some e → (subscribe r ch topic).1 = r.
Proof.
  rewrite subscribe_error. intros He. apply subscribe_duplicate_state.
  by destruct (decide (registered r topic ch)).
Qed.

(** C9: publish leaves the router as it was: the same nodes, each with the
    same subscriber set. *)
Theorem publish_frame (r : router) (v : T) (tps : list string) :
  (publish r v tps).1 = r ∧ (serve r (CmdPublish v tps)).1.1 = r.
Proof.
  pose proof (publish_state r v tps) as Hp. split; [done|]. simpl.
  by destruct (publish r v tps).
Qed.

(** * Further properties of the router *)

(** ** What subscribe and unsubscribe change *)

Lemma subscribe_registered (r : router) (ch : handle) (topic : list string)
    (path : list string) (ch' : handle) :
  registered (subscribe r ch topic).1 path ch' ↔
  registered r path ch' ∨ (path = topic ∧ ch' = ch).
Proof.
  revert r path. induction topic as [|t rest IH]; intros r path; simpl.
  - destruct (decide (ch ∈ subscribers r)) as [Hin|Hin]; simpl.
    + split; [by left|]. intros [Hr|[-> ->]]; [done|].
      by apply registered_nil.
    + destruct path as [|t' path].
      * rewrite !registered_nil. simpl. set_solver.
      * rewrite !registered_cons. simpl. naive_solver.
  - pose proof (IH (match topics r !! t with Some r2 => r2 | None => new_router end))
      as IH2.
    destruct (subscribe _ ch rest) as [r2' err]; simpl in *.
    destruct path as [|t' path].
    + rewrite !registered_nil. simpl. naive_solver.
    + rewrite !registered_cons. simpl.
      destruct (decide (t = t')) as [<-|Hne].
      * rewrite lookup_insert_eq. split.
        -- intros (r3 & [= <-] & Hr). apply IH2 in Hr as [Hr|[-> ->]].
           ++ destruct (topics r !! t) as [r2|] eqn:Hl; [left; eauto|].
              by apply new_router_unregistered in Hr.
           ++ by right.
        -- intros [(r3 & Hl & Hr)|[[= ->] ->]].
           ++ exists r2'. split; [done|]. apply IH2. left. by rewrite Hl.
           ++ exists r2'. split; [done|]. apply IH2. by right.
      * rewrite lookup_insert_ne by done. split; [by left|].
        intros [Hr|[[= -> ->] _]]; done.
Qed.

Lemma subscribe_nodes (r : router) (ch : handle) (topic path : list string) :
  is_Some (node_at (subscribe r ch topic).1 path) ↔
  is_Some (node_at r path) ∨ path `prefix_of` topic.
Proof.
  revert r path. induction topic as [|t rest IH]; intros r path; simpl.
  - assert (is_Some (node_at (if decide (ch ∈ subscribers r)
                              then (r, Some DuplicateSubscription)
                              else (Router ({[ch]} ∪ subscribers r) (topics r), None)).1
                       path) ↔ is_Some (node_at r path)) as ->.
    { case_decide; simpl; [done|]. by destruct path. }
    split; [by left|]. intros [Hn|Hp]; [done|].
    apply prefix_nil_inv in Hp as ->. by eexists.
  - pose proof (IH (match topics r !! t with Some r2 => r2 | None => new_router end))
      as IH2.
    destruct (subscribe _ ch rest) as [r2' err]; simpl in *.
    destruct path as [|t' path].
    + simpl. split; [by left|]. intros _. by eexists.
    + rewrite node_at_set_topic. destruct (decide (t = t')) as [<-|Hne].
      * rewrite IH2. simpl. destruct (topics r !! t) as [r2|] eqn:Hl.
        -- split.
           ++ intros [Hn|Hp]; [by left|right; by apply prefix_cons].
           ++ intros [Hn|Hp]; [by left|right].
              by apply prefix_cons_inv_2 in Hp.
        -- split.
           ++ intros [Hn|Hp]; [|right; by apply prefix_cons].
              right. apply prefix_cons. destruct path as [|t2 path].
              ** apply prefix_nil.
              ** simpl in Hn. rewrite lookup_empty in Hn. by destruct Hn.
           ++ intros [[? Hn]|Hp]; [done|right].
              by apply prefix_cons_inv_2 in Hp.
      * split; [by left|]. intros [Hn|Hp]; [done|].
        by apply prefix_cons_inv_1 in Hp.
Qed.

Lemma unsubscribe_nodes (r : router) (ch : handle) (tps path : list string) :
  is_Some (node_at (unsubscribe r ch tps).1 path) ↔ is_Some (node_at r path).
Proof.
  revert r path. induction tps as [|t rest IH]; intros r path; simpl.
  - by destruct path.
  - destruct (topics r !! t) as [r2|] eqn:Hl; [|done].
    specialize (IH r2). destruct (unsubscribe r2 ch rest) as [r2' evs].
    simpl in *. destruct path as [|t' path]; [done|].
    rewrite node_at_set_topic. destruct (decide (t = t')) as [<-|Hne]; [|done].
    simpl. by rewrite Hl.
Qed.

Lemma subscribe_unsubscribe_state (r : router) (ch : handle)
    (topic : list string) :
  is_Some (node_at r topic) → ¬ registered r topic ch →
  (unsubscribe (subscribe r ch topic).1 ch topic).1 = r.
Proof.
  revert r. induction topic as [|t rest IH]; intros r Hn Hreg; simpl.
  - rewrite registered_nil in Hreg. rewrite decide_False by done.
    destruct r as [s ts]; simpl in *. f_equal. set_solver.
  - simpl in Hn. destruct (topics r !! t) as [r2|] eqn:Hl; [|by destruct Hn].
    assert (¬ registered r2 rest ch) as H2.
    { intros H2. apply Hreg, registered_cons. eauto. }
    specialize (IH r2 Hn H2).
    destruct (subscribe r2 ch rest) as [r2' err]; simpl in *.
    rewrite lookup_insert_eq.
    destruct (unsubscribe r2' ch rest) as [r2'' evs]; simpl in *. subst r2''.
    unfold set_topic; simpl. rewrite insert_insert_eq.
    destruct r as [s ts]; simpl in *. f_equal. by apply insert_id.
Qed.

(** ** How publishes at related paths compare *)

Lemma publish_starts_with_offer (r : router) (v : T) (tps : list string) :
  ∃ evs, (publish r v tps).2 = offer r v ++ evs.
Proof.
  destruct tps as [|t rest]; simpl.
  - exists []. by rewrite app_nil_r.
  - destruct (topics r !! t) as [r2|].
    + destruct (publish r2 v rest) as [r2' evs]. by exists evs.
    + exists []. by rewrite app_nil_r.
Qed.

Lemma publish_below_missing_node (r : router) (v : T) (tps more : list string) :
  node_at r tps = None → publish r v (tps ++ more) = publish r v tps.
Proof.
  revert r. induction tps as [|t rest IH]; intros r Hn; simpl in *; [done|].
  destruct (topics r !! t) as [r2|]; [|done]. by rewrite (IH r2 Hn).
Qed.

Lemma publish_extends (r : router) (v : T) (tps more : list string) :
  (publish r v tps).2 `prefix_of` (publish r v (tps ++ more)).2.
Proof.
  revert r. induction tps as [|t rest IH]; intros r; simpl.
  - destruct (publish_starts_with_offer r v more) as [evs ->]. by exists evs.
  - destruct (topics r !! t) as [r2|]; [|done].
    specialize (IH r2).
    destruct (publish r2 v rest) as [r2' evs],
             (publish r2 v (rest ++ more)) as [r2'' evs']; simpl in *.
    by apply prefix_app.
Qed.

Lemma filter_length_ext {A} (P1 P2 : A → Prop)
    `{!∀ x, Decision (P1 x)} `{!∀ x, Decision (P2 x)} (l : list A) :
  (∀ y, y ∈ l → (P2 y ↔ P1 y)) →
  length (filter P2 l) = length (filter P1 l).
Proof.
  induction l as [|y l IH]; intros Hext; [done|].
  rewrite !filter_cons.
  assert (P2 y ↔ P1 y) as Hy by (apply Hext, elem_of_cons; by left).
  assert (length (filter P2 l) = length (filter P1 l)) as Hl.
  { apply IH. intros z Hz. apply Hext, elem_of_cons. by right. }
  destruct (decide (P2 y)), (decide (P1 y)); simpl; try tauto; by rewrite Hl.
Qed.

Lemma filter_length_added {A} `{!EqDecision A} (P1 P2 : A → Prop)
    `{!∀ x, Decision (P1 x)} `{!∀ x, Decision (P2 x)} (x : A) (l : list A) :
  NoDup l → ¬ P1 x → (∀ y, P2 y ↔ P1 y ∨ y = x) →
  length (filter P2 l) =
  length (filter P1 l) + (if decide (x ∈ l) then 1 else 0).
Proof.
  intros Hnd Hx H12. induction Hnd as [|y l Hnin Hnd IH].
  - rewrite decide_False; [done|]. apply not_elem_of_nil.
  - rewrite !filter_cons. destruct (decide (y = x)) as [->|Hne].
    + rewrite (decide_True (P := P2 x)) by (apply H12; by right).
      rewrite (decide_False (P := P1 x)) by done.
      rewrite (decide_True (P := x ∈ x :: l)) by (apply elem_of_cons; by left).
      rewrite (decide_False (P := x ∈ l)) in IH by done. simpl. lia.
    + assert (P2 y ↔ P1 y) as Hy by (rewrite H12; naive_solver).
      assert ((if decide (x ∈ y :: l) then 1 else 0) =
              (if decide (x ∈ l) then 1 else 0)) as ->.
      { destruct (decide (x ∈ l)) as [Hin|Hin].
        - rewrite decide_True; [done|]. apply elem_of_cons. by right.
        - rewrite decide_False; [done|]. rewrite elem_of_cons. naive_solver. }
      destruct (decide (P2 y)), (decide (P1 y)); simpl; try tauto; lia.
Qed.

Lemma publish_sends_to_added (r r' : router) (v : T) (topic tps : list string)
    (ch c : handle) :
  ¬ registered r topic ch →
  (∀ q c', registered r' q c' ↔ registered r q c' ∨ (q = topic ∧ c' = ch)) →
  sends_to c (publish r' v tps).2 =
  sends_to c (publish r v tps).2 +
  (if decide (c = ch ∧ topic `prefix_of` tps) then 1 else 0).
Proof.
  intros Hnew Hreg. rewrite !publish_sends_to.
  destruct (decide (c = ch)) as [->|Hne].
  - rewrite (filter_length_added (λ q, registered r q ch)
               (λ q, registered r' q ch) topic);
      [|apply NoDup_prefixes|done|].
    + f_equal. destruct (decide (topic ∈ prefixes tps)) as [Hin|Hin].
      * rewrite decide_True; [done|]. split; [done|]. by apply elem_of_prefixes.
      * rewrite decide_False; [done|]. intros [_ Hp]. by apply Hin, elem_of_prefixes.
    + intros q. rewrite Hreg. naive_solver.
  - rewrite decide_False by naive_solver. rewrite Nat.add_0_r.
    apply filter_length_ext. intros q _. rewrite Hreg. naive_solver.
Qed.

(** ** close, from any set of channels already closed *)



Lemma close_only_closes (r : router) (cl : gset handle) (e : event) :
  e ∈ (close r (cl, [])).2 →
  ∃ ch, e = Close ch ∧ ch ∈ all_handles r ∧ ch ∉ cl.
Proof.
  destruct (close_closes r (cl, [])) as [_ (l & -> & Hnd & Hl)]. simpl.
  intros (ch & -> & Hin)%list_elem_of_fmap. exists ch. split; [done|].
  by apply Hl.
Qed.

(** ** What the closes of a shutdown do to the channels *)

Lemma exec_closes (l : list handle) (w : gmap handle chan) :
  NoDup l → (∀ ch, ch ∈ l → usable w ch) →
  ∃ w', exec w (Close <$> l) = Some w' ∧
        (∀ ch, ch ∈ l →
               ∃ c, w !! ch = Some c ∧
                    w' !! ch = Some (Chan (inbox c) (ready c) true)) ∧
        (∀ ch, ch ∉ l → w' !! ch = w !! ch).
Proof.
  intros Hnd. revert w.
  induction Hnd as [|ch0 l Hnin Hnd IH]; intros w Hok.
  - exists w. split; [done|]. split; [|done].
    intros ch Hin. by apply elem_of_nil in Hin.
  - destruct (Hok ch0) as (c0 & Hw0 & Hc0); [apply elem_of_cons; by left|].
    rewrite fmap_cons. cbn [exec exec1]. unfold close_chan. rewrite Hw0, Hc0.
    destruct (IH (<[ch0 := Chan (inbox c0) (ready c0) true]> w))
      as (w' & He & Hin' & Hout').
    { intros ch Hin. destruct (Hok ch) as (c & Hw & Hc).
      { apply elem_of_cons. by right. }
      exists c. split; [|done]. rewrite lookup_insert_ne; [done|].
      by intros ->. }
    exists w'. split; [done|]. split.
    + intros ch Hin. apply elem_of_cons in Hin as [->|Hin].
      * exists c0. split; [done|]. rewrite (Hout' ch0 Hnin).
        by rewrite lookup_insert_eq.
      * destruct (Hin' ch Hin) as (c & Hw & Hw').
        rewrite lookup_insert_ne in Hw by (by intros ->). eauto.
    + intros ch Hout. rewrite elem_of_cons in Hout.
      rewrite Hout' by naive_solver. rewrite lookup_insert_ne; naive_solver.
Qed.

Lemma exec_close_unusable (l : list handle) (w : gmap handle chan)
    (ch : handle) :
  ch ∈ l → ¬ usable w ch → exec w (Close <$> l) = None.
Proof.
  revert w. induction l as [|ch0 l IH]; intros w Hin Hbad.
  - by apply elem_of_nil in Hin.
  - rewrite fmap_cons. cbn [exec exec1]. unfold close_chan.
    destruct (w !! ch0) as [c0|] eqn:Hw0; [|done].
    destruct (closed c0) eqn:Hc0; [done|].
    apply elem_of_cons in Hin as [->|Hin].
    { exfalso. apply Hbad. by exists c0. }
    apply IH; [done|]. intros (c & Hw & Hc). apply Hbad. exists c.
    split; [|done]. rewrite lookup_insert in Hw. case_decide; [|done].
    injection Hw as <-. done.
Qed.

Lemma exec_send_closed (v : T) (evs : list event) (w : gmap handle chan)
    (ch : handle) (c : chan) :
  Forall (λ e, ∃ ch', e = Send ch' v) evs →
  Send ch v ∈ evs → w !! ch = Some c → closed c = true →
  exec w evs = None.
Proof.
  intros Hev. revert w c.
  induction Hev as [|e evs [ch0 ->] _ IH]; intros w c Hin Hw Hc.
  - by apply elem_of_nil in Hin.
  - cbn [exec exec1]. unfold try_send.
    destruct (decide (ch0 = ch)) as [->|Hne].
    { by rewrite Hw, Hc. }
    apply elem_of_cons in Hin as [[= ?]|Hin]; [done|].
    destruct (w !! ch0) as [c0|] eqn:Hw0; [|by eapply IH].
    destruct (closed c0); [done|].
    destruct (ready c0) as [|n]; [by eapply IH|].
    eapply IH; [done| |done]. by rewrite lookup_insert_ne.
Qed.

(** ** Which channels a run of the broker touches *)

Lemma publish_events_registered (r : router) (v : T) (tps : list string)
    (e : event) :
  e ∈ (publish r v tps).2 → ∃ q, registered r q (target e).
Proof.
  intros Hin. pose proof (publish_only_sends r v tps) as Hall.
  rewrite Forall_forall in Hall. destruct (Hall e Hin) as [ch ->].
  apply elem_of_publish in Hin as [_ (q & _ & Hr)]. by exists q.
Qed.

Lemma serve_registered (rr : router) (c : command) (q : list string)
    (ch : handle) :
  registered (serve rr c).1.1 q ch →
  registered rr q ch ∨ ∃ topic, c = CmdSubscribe ch topic.
Proof.
  destruct c as [v topic|ch' topic|ch' topic]; simpl.
  - pose proof (publish_state rr v topic) as Hp.
    destruct (publish rr v topic) as [rr' evs]; simpl in *. subst rr'. by left.
  - pose proof (subscribe_registered rr ch' topic q ch) as Hs.
    destruct (subscribe rr ch' topic) as [rr' err]; simpl in *.
    intros [Hr|[-> ->]]%Hs; [by left|right; eauto].
  - pose proof (unsubscribe_registered rr ch' topic q ch) as Hu.
    destruct (unsubscribe rr ch' topic) as [rr' evs]; simpl in *.
    intros [Hr _]%Hu. by left.
Qed.

Lemma serve_events_registered (rr : router) (c : command) (e : event) :
  e ∈ (serve rr c).1.2 → ∃ q, registered rr q (target e).
Proof.
  destruct c as [v topic|ch' topic|ch' topic]; simpl.
  - pose proof (publish_events_registered rr v topic e) as Hp.
    by destruct (publish rr v topic) as [rr' evs].
  - destruct (subscribe rr ch' topic) as [rr' err]; simpl.
    intros Hin. by apply elem_of_nil in Hin.
  - pose proof (unsubscribe_events rr ch' topic) as Hu.
    destruct (unsubscribe rr ch' topic) as [rr' evs]; simpl in *. subst evs.
    intros Hin. by apply elem_of_nil in Hin.
Qed.

Lemma serve_all_registered (cs : list command) (rr : router) (q : list string)
    (ch : handle) :
  registered (serve_all rr cs).1 q ch →
  registered rr q ch ∨ ∃ topic, CmdSubscribe ch topic ∈ cs.
Proof.
  revert rr. induction cs as [|c cs IH]; intros rr; simpl; [by left|].
  pose proof (serve_registered rr c) as H1.
  destruct (serve rr c) as [[rr1 evs1] err]; simpl in H1.
  specialize (IH rr1). destruct (serve_all rr1 cs) as [rr2 evs2]; simpl in *.
  intros [Hr|(topic & Hin)]%IH.
  - apply H1 in Hr as [Hr|(topic & ->)]; [by left|right].
    exists topic. apply elem_of_cons. by left.
  - right. exists topic. apply elem_of_cons. by right.
Qed.

Lemma serve_all_events_registered (cs : list command) (rr : router)
    (e : event) :
  e ∈ (serve_all rr cs).2 →
  (∃ q, registered rr q (target e)) ∨
  ∃ topic, CmdSubscribe (target e) topic ∈ cs.
Proof.
  revert rr. induction cs as [|c cs IH]; intros rr; simpl.
  - intros Hin. by apply elem_of_nil in Hin.
  - pose proof (serve_registered rr c) as H1.
    pose proof (serve_events_registered rr c e) as H2.
    destruct (serve rr c) as [[rr1 evs1] err]; simpl in H1, H2.
    specialize (IH rr1). destruct (serve_all rr1 cs) as [rr2 evs2]; simpl in *.
    intros [Hin|Hin]%elem_of_app; [left; by apply H2|].
    apply IH in Hin as [(q & Hr)|(topic & Hin)].
    + apply H1 in Hr as [Hr|(topic & ->)]; [left; eauto|right].
      exists topic. apply elem_of_cons. by left.
    + right. exists topic. apply elem_of_cons. by right.
Qed.

(** ** The order of two subscribes *)

Lemma subscribe_cons_state (r : router) (ch : handle) (t : string)
    (rest : list string) :
  (subscribe r ch (t :: rest)).1 =
  set_topic r t
    (subscribe (default new_router (topics r !! t)) ch rest).1.
Proof.
  simpl. destruct (topics r !! t) as [r2|]; simpl;
    by destruct (subscribe _ ch rest).
Qed.

Lemma subscribe_nil_state (r : router) (ch : handle) :
  (subscribe r ch []).1 = Router ({[ch]} ∪ subscribers r) (topics r).
Proof.
  simpl. destruct (decide (ch ∈ subscribers r)) as [Hin|Hin]; simpl; [|done].
  destruct r as [s ts]; simpl in *. f_equal. set_solver.
Qed.

Lemma subscribe_commute (r : router) (c1 c2 : handle) (p1 p2 : list string) :
  (subscribe (subscribe r c1 p1).1 c2 p2).1 =
  (subscribe (subscribe r c2 p2).1 c1 p1).1.
Proof.
  revert r p2. induction p1 as [|t1 rest1 IH]; intros r p2.
  - destruct p2 as [|t2 rest2].
    + rewrite !subscribe_nil_state. simpl. f_equal. set_solver.
    + rewrite subscribe_nil_state, !subscribe_cons_state, subscribe_nil_state.
      done.
  - destruct p2 as [|t2 rest2].
    + rewrite subscribe_nil_state, !subscribe_cons_state, subscribe_nil_state.
      done.
    + rewrite !subscribe_cons_state. unfold set_topic; simpl.
      destruct (decide (t1 = t2)) as [<-|Hne].
      * rewrite !lookup_insert_eq, !insert_insert_eq. simpl. by rewrite IH.
      * rewrite !lookup_insert_ne by done. by rewrite insert_insert_ne.
Qed.

(** * Further statements *)

(** X1: subscribe adds the registration of the handle at the given path and
    changes no other registration, whether it succeeds or reports a
    duplicate. *)
Theorem subscribe_adds_one_registration (r : router) (ch : handle)
    (topic : list string) (path : list string) (ch' : handle) :
  registered (subscribe r ch topic).1 path ch' ↔
  registered r path ch' ∨ (path = topic ∧ ch' = ch).
Proof. apply subscribe_registered. Qed.

(** X2: the nodes present after a subscribe are those present before it and
    the ones on the way to the given path: it creates every missing node
    along the path and none elsewhere. *)
Theorem subscribe_creates_path_nodes (r : router) (ch : handle)
    (topic path : list string) :
  is_Some (node_at (subscribe r ch topic).1 path) ↔
  is_Some (node_at r path) ∨ path `prefix_of` topic.
Proof. apply subscribe_nodes. Qed.

(** X3: unsubscribe leaves the shape of the tree alone: a path leads to a
    node after it exactly when it did before. *)
Theorem unsubscribe_keeps_shape (r : router) (ch : handle)
    (tps path : list string) :
  is_Some (node_at (unsubscribe r ch tps).1 path) ↔ is_Some (node_at r path).
Proof. apply unsubscribe_nodes. Qed.

(** X4: subscribing a handle that was not registered at a path and then
    unsubscribing it there restores every registration; it restores the
    router itself when the path already led to a node, and not otherwise,
    because the nodes the subscribe created stay. *)
Theorem subscribe_unsubscribe_round_trip (r : router) (ch : handle)
    (topic : list string) :
  ¬ registered r topic ch →
  (∀ path ch', registered (unsubscribe (subscribe r ch topic).1 ch topic).1
                 path ch' ↔ registered r path ch') ∧
  (is_Some (node_at r topic) →
   (unsubscribe (subscribe r ch topic).1 ch topic).1 = r) ∧
  (node_at r topic = None →
   (unsubscribe (subscribe r ch topic).1 ch topic).1 ≠ r).
Proof.
  intros Hreg. split; [|split].
  - intros path ch'. rewrite unsubscribe_registered, subscribe_registered.
    split; [naive_solver|]. intros Hr. split; [by left|].
    intros [-> ->]. done.
  - intros Hn. by apply subscribe_unsubscribe_state.
  - intros Hn Heq.
    assert (is_Some (node_at (unsubscribe (subscribe r ch topic).1 ch topic).1
                       topic)) as Hs.
    { apply unsubscribe_nodes, subscribe_nodes. by right. }
    rewrite Heq, Hn in Hs. by destruct Hs.
Qed.

(** X5: unsubscribing a registered handle and subscribing it again at the
    same path succeeds and gives back the router as it was. *)
Theorem unsubscribe_subscribe_round_trip (r : router) (ch : handle)
    (topic : list string) :
  registered r topic ch →
  subscribe (unsubscribe r ch topic).1 ch topic = (r, None).
Proof.
  revert r. induction topic as [|t rest IH]; intros r Hreg; simpl.
  - apply registered_nil in Hreg. rewrite decide_False by set_solver.
    destruct r as [s ts]; simpl in *. f_equal. f_equal.
    apply set_eq. intros x. rewrite elem_of_union, elem_of_difference,
      elem_of_singleton. destruct (decide (x = ch)); naive_solver.
  - apply registered_cons in Hreg as (r2 & Hl & Hreg). rewrite Hl.
    specialize (IH r2 Hreg).
    destruct (unsubscribe r2 ch rest) as [r2' evs]; simpl in *.
    rewrite lookup_insert_eq, IH. unfold set_topic; simpl.
    rewrite insert_insert_eq. f_equal.
    destruct r as [s ts]; simpl in *. f_equal. by apply insert_id.
Qed.

(** X6: two subscribes give the same router in either order, and a
    subscribe of another handle or at another path does not change whether
    a subscribe is a duplicate. *)
Theorem subscribe_order_irrelevant (r : router) (c1 c2 : handle)
    (p1 p2 : list string) :
  (subscribe (subscribe r c1 p1).1 c2 p2).1 =
  (subscribe (subscribe r c2 p2).1 c1 p1).1 ∧
  (¬ (p1 = p2 ∧ c1 = c2) →
   (subscribe (subscribe r c1 p1).1 c2 p2).2 = (subscribe r c2 p2).2).
Proof.
  split; [apply subscribe_commute|]. intros Hne. rewrite !subscribe_error.
  destruct (decide (registered (subscribe r c1 p1).1 p2 c2)) as [H1|H1];
    destruct (decide (registered r p2 c2)) as [H2|H2]; try done.
  - apply subscribe_registered in H1 as [H1|[-> ->]]; [done|].
    by destruct Hne.
  - exfalso. apply H1, subscribe_registered. by left.
Qed.

(** X7: when the published path leaves the tree, segments after the first
    missing node do not matter: a publish below a path that leads to no
    node does what a publish at that path does. *)
Theorem publish_below_missing_node_same (r : router) (v : T)
    (tps more : list string) :
  node_at r tps = None → publish r v (tps ++ more) = publish r v tps.
Proof. apply publish_below_missing_node. Qed.

(** X8: a publish at a longer path sends to every handle at least as often
    as a publish at the shorter one, and a handle gets at most one send per
    node on the way: no more than the length of the path plus one. *)
Theorem publish_deeper_reaches_more (r : router) (v : T)
    (tps more : list string) (ch : handle) :
  sends_to ch (publish r v tps).2 ≤ sends_to ch (publish r v (tps ++ more)).2 ∧
  sends_to ch (publish r v tps).2 ≤ S (length tps).
Proof.
  split.
  - destruct (publish_extends r v tps more) as [evs ->].
    rewrite sends_to_app. lia.
  - rewrite publish_sends_to.
    etransitivity; [apply length_filter|].
    clear. induction tps as [|t rest IH]; simpl; [done|].
    rewrite length_fmap. lia.
Qed.

(** X12: when every registered handle is a channel that is not nil and not
    closed, the closes of a shutdown all succeed: each registered channel
    ends closed with what it held untouched, and no other channel
    changes. *)
Theorem shutdown_closes_channels (r : router) (w : gmap handle chan) :
  (∀ path ch, registered r path ch → usable w ch) →
  ∃ w', exec w (shutdown r) = Some w' ∧
        (∀ path ch, registered r path ch →
           ∃ c, w !! ch = Some c ∧
                w' !! ch = Some (Chan (inbox c) (ready c) true)) ∧
        (∀ ch, (∀ path, ¬ registered r path ch) → w' !! ch = w !! ch).
Proof.
  intros Hok. unfold shutdown.
  destruct (close_closes r (∅, [])) as [_ (l & -> & Hnd & Hl)]. simpl in *.
  assert (∀ ch, ch ∈ l ↔ ∃ path, registered r path ch) as Hl'.
  { intros ch. rewrite Hl, <-elem_of_all_handles. set_solver. }
  destruct (exec_closes l w Hnd) as (w' & He & Hin & Hout).
  { intros ch (path & Hr)%Hl'. by apply (Hok path). }
  exists w'. split; [done|]. split.
  - intros path ch Hr. apply Hin, Hl'. eauto.
  - intros ch Hnone. apply Hout. intros (path & Hr)%Hl'.
    by apply (Hnone path).
Qed.

(** X13: a shutdown panics when some registered handle is the nil channel
    or a channel that was closed before. *)
Theorem shutdown_panics_on_unusable (r : router) (w : gmap handle chan)
    (path : list string) (ch : handle) :
  registered r path ch → ¬ usable w ch → exec w (shutdown r) = None.
Proof.
  intros Hr Hbad. unfold shutdown.
  destruct (close_closes r (∅, [])) as [_ (l & -> & Hnd & Hl)]. simpl in *.
  apply (exec_close_unusable l w ch); [|done].
  apply Hl. split; [|set_solver]. apply elem_of_all_handles. eauto.
Qed.

(** X14: a publish panics when a handle registered at a prefix of the
    published path is a channel that was closed. *)
Theorem publish_panics_on_closed (r : router) (v : T) (tps q : list string)
    (ch : handle) (w : gmap handle chan) (c : chan) :
  q `prefix_of` tps → registered r q ch →
  w !! ch = Some c → closed c = true →
  exec w (publish r v tps).2 = None.
Proof.
  intros Hq Hr Hw Hc.
  apply (exec_send_closed v _ w ch c); [apply publish_only_sends| |done|done].
  apply elem_of_publish. eauto.
Qed.

(** X15: a run of the broker, shutdown included, sends to and closes only
    channels that some subscribe command of the run named. *)
Theorem process_touches_only_subscribed (cs : list command) (e : event) :
  e ∈ Process cs → ∃ topic, CmdSubscribe (target e) topic ∈ cs.
Proof.
  unfold Process.
  pose proof (serve_all_registered cs new_router) as Hreg.
  pose proof (serve_all_events_registered cs new_router e) as Hev.
  destruct (serve_all new_router cs) as [rr evs]; simpl in *.
  intros [Hin|Hin]%elem_of_app.
  - apply Hev in Hin as [(q & Hr)|Hsub]; [|done].
    by apply new_router_unregistered in Hr.
  - apply close_only_closes in Hin as (ch & -> & Hin & _). simpl.
    apply elem_of_all_handles in Hin as (q & Hr).
    apply Hreg in Hr as [Hr|Hsub]; [|done].
    by apply new_router_unregistered in Hr.
Qed.

(** X16: a handle that is subscribed at a path and unsubscribed there, and
    registered nowhere else, is not closed by the shutdown: the broker
    never closes it. *)
Theorem unsubscribed_handle_never_closed (r : router) (ch : handle)
    (topic : list string) :
  (∀ path, ¬ registered r path ch) →
  closes_of ch (shutdown (unsubscribe (subscribe r ch topic).1 ch topic).1) = 0.
Proof.
  intros Hnone. rewrite shutdown_closes_of. rewrite decide_False; [done|].
  intros (path & Hr)%elem_of_all_handles.
  apply unsubscribe_registered in Hr as [Hr Hne].
  apply subscribe_registered in Hr as [Hr|Heq]; [|done].
  by apply (Hnone path).
Qed.

(** * What is carried out when a channel operation can panic *)

Lemma performed_prefix (w : gmap handle chan) (evs : list event) :
  performed w evs `prefix_of` evs.
Proof.
  revert w. induction evs as [|e evs IH]; intros w; simpl; [done|].
  destruct (exec1 w e) as [w1|]; [|apply prefix_nil].
  apply prefix_cons, IH.
Qed.

Lemma performed_all (w w' : gmap handle chan) (evs : list event) :
  exec w evs = Some w' → performed w evs = evs.
Proof.
  revert w. induction evs as [|e evs IH]; intros w; simpl; [done|].
  destruct (exec1 w e) as [w1|]; [|done]. intros He. by rewrite (IH w1 He).
Qed.

Lemma performed_elem_of (w : gmap handle chan) (evs : list event) (e : event) :
  e ∈ performed w evs → e ∈ evs.
Proof.
  destruct (performed_prefix w evs) as [k Hk]. intros Hin.
  rewrite Hk. apply elem_of_app. by left.
Qed.

Lemma performed_sends_to (w : gmap handle chan) (evs : list event)
    (ch : handle) :
  sends_to ch (performed w evs) ≤ sends_to ch evs.
Proof.
  destruct (performed_prefix w evs) as [k Hk].
  rewrite Hk at 2. rewrite sends_to_app. lia.
Qed.


Lemma exec_sends (v : T) (evs : list event) (w : gmap handle chan) :
  Forall (λ e, ∃ ch, e = Send ch v) evs →
  (∀ ch c, Send ch v ∈ evs → w !! ch = Some c → closed c = false) →
  ∃ w', exec w evs = Some w' ∧
        ∀ ch, w' !! ch = after_sends v (sends_to ch evs) <$> w !! ch.
Proof.
  intros Hev. revert w.
  induction Hev as [|e evs [ch0 ->] _ IH]; intros w Hopen; simpl.
  - exists w. split; [done|]. intros ch.
    destruct (w !! ch) as [c|]; simpl; [|done]. by rewrite after_sends_none.
  - assert (∀ ch c, Send ch v ∈ evs → w !! ch = Some c → closed c = false)
      as Hopen'.
    { intros ch c Hin. apply Hopen, elem_of_cons. by right. }
    unfold try_send. destruct (w !! ch0) as [c|] eqn:Hw.
    + assert (closed c = false) as Hcl.
      { apply (Hopen ch0); [|done]. apply elem_of_cons. by left. }
      rewrite Hcl. destruct c as [i n cl]. simpl in Hcl. subst cl. simpl.
      destruct n as [|n].
      * destruct (IH w Hopen') as (w' & He & Hw'). exists w'. split; [done|].
        intros ch. rewrite Hw'. destruct (decide (ch0 = ch)) as [<-|Hne]; [|done].
        rewrite Hw. simpl. by rewrite !after_sends_full.
      * destruct (IH (<[ch0 := Chan (i ++ [v]) n false]> w))
          as (w' & He & Hw').
        { intros ch c Hin. rewrite lookup_insert. case_decide.
          - by intros [= <-].
          - by apply Hopen'. }
        exists w'. split; [done|]. intros ch. rewrite Hw', lookup_insert.
        destruct (decide (ch0 = ch)) as [<-|Hne]; [|done].
        rewrite Hw. simpl. by rewrite after_sends_next.
    + destruct (IH w Hopen') as (w' & He & Hw'). exists w'. split; [done|].
      intros ch. rewrite Hw'. destruct (decide (ch0 = ch)) as [<-|Hne]; [|done].
      by rewrite Hw.
Qed.

Lemma publish_runs (r : router) (v : T) (tps : list string)
    (w : gmap handle chan) :
  no_closed_subscriber r tps w →
  ∃ w', exec w (publish r v tps).2 = Some w' ∧
        performed w (publish r v tps).2 = (publish r v tps).2 ∧
        ∀ ch, w' !! ch =
              after_sends v (sends_to ch (publish r v tps).2) <$> w !! ch.
Proof.
  intros Hopen.
  destruct (exec_sends v (publish r v tps).2 w (publish_only_sends r v tps))
    as (w' & He & Hw').
  { intros ch c [_ (q & Hq & Hr)]%elem_of_publish Hw. by apply (Hopen q ch c). }
  exists w'. split; [done|]. split; [by eapply performed_all|done].
Qed.

Lemma no_closed_subscriber_fewer (r r' : router) (tps : list string)
    (w : gmap handle chan) :
  (∀ q ch, registered r' q ch → registered r q ch) →
  no_closed_subscriber r tps w → no_closed_subscriber r' tps w.
Proof. intros Hsub Hopen q ch c Hq Hr. apply (Hopen q ch c Hq), Hsub, Hr. Qed.


Lemma no_closed_subscriber_open (r : router) (tps : list string)
    (w : gmap handle chan) :
  map_Forall (λ _ c, closed c = false) w → no_closed_subscriber r tps w.
Proof. intros Hall q ch c _ _ Hw. exact (Hall ch c Hw). Qed.

(** * The claims that depend on the channels *)

(** C1 (amended): a publish of [v] at path [tps] offers the value only
    through registrations at prefixes of [tps]: every send carried out
    carries [v] and goes to a handle registered at some prefix, and a
    handle whose registrations are all at paths that are not prefixes
    (longer paths included) is offered nothing.  When no handle registered
    at a prefix of [tps] is a closed channel, so that no send panics, the
    value is offered through every registration at a prefix, the root
    included. *)
Theorem publish_offers_iff_prefix (r : router) (v : T) (tps : list string)
    (w : gmap handle chan) (ch : handle) :
  (∀ v', Send ch v' ∈ performed w (publish r v tps).2 →
         v' = v ∧ ∃ q, q `prefix_of` tps ∧ registered r q ch) ∧
  ((∀ q, registered r q ch → ¬ q `prefix_of` tps) →
   sends_to ch (performed w (publish r v tps).2) = 0) ∧
  (no_closed_subscriber r tps w →
   (∀ q, q `prefix_of` tps → registered r q ch →
         Send ch v ∈ performed w (publish r v tps).2) ∧
   (registered r [] ch → Send ch v ∈ performed w (publish r v tps).2)).
Proof.
  split; [|split].
  - intros v' Hin%performed_elem_of. by apply elem_of_publish.
  - intros Hnone.
    pose proof (performed_sends_to w (publish r v tps).2 ch) as Hle.
    rewrite publish_sends_to in Hle.
    destruct (filter _ _) as [|q l] eqn:Hf; [simpl in Hle; lia|].
    assert (q ∈ filter (λ q, registered r q ch) (prefixes tps)) as Hq.
    { rewrite Hf. apply elem_of_cons. by left. }
    apply list_elem_of_filter in Hq as [Hr Hq].
    apply elem_of_prefixes in Hq. by destruct (Hnone q Hr).
  - intros Hopen. destruct (publish_runs r v tps w Hopen) as (w' & _ & -> & _).
    split.
    + intros q Hq Hr. apply elem_of_publish. eauto.
    + intros Hr. apply elem_of_publish. split; [done|].
      exists []. split; [apply prefix_nil|done].
Qed.


(** C4 (amended): when no handle registered at a prefix of the published
    path is a closed channel, a publish never waits and never fails on a
    slow subscriber: its sends all complete; a channel that cannot take a
    value ([ready] is 0) is left as it was, the value dropped; a channel
    not registered at a prefix is left as it was; and every channel that
    can take a value and is registered at a prefix receives [v], whatever
    the state of the others. *)
Theorem publish_best_effort (r : router) (v : T) (tps : list string)
    (w : gmap handle chan) :
  no_closed_subscriber r tps w →
  ∃ w', exec w (publish r v tps).2 = Some w' ∧
    ∀ ch c, w !! ch = Some c →
      (ready c = 0 → w' !! ch = Some c) ∧
      ((∀ q, q `prefix_of` tps → ¬ registered r q ch) → w' !! ch = Some c) ∧
      (0 < ready c → (∃ q, q `prefix_of` tps ∧ registered r q ch) →
       ∃ k, 0 < k ∧
         w' !! ch = Some (Chan (inbox c ++ replicate k v) (ready c - k) false)).
Proof.
  intros Hopen.
  destruct (publish_runs r v tps w Hopen) as (w' & He & _ & Hw').
  exists w'. split; [done|]. intros ch c Hw.
  rewrite Hw', Hw. simpl. split; [|split].
  - intros H0. by rewrite after_sends_full.
  - intros Hnone. rewrite publish_sends_to.
    destruct (filter _ _) as [|q l] eqn:Hf; [by rewrite after_sends_none|].
    assert (q ∈ filter (λ q, registered r q ch) (prefixes tps)) as Hq.
    { rewrite Hf. apply elem_of_cons. by left. }
    apply list_elem_of_filter in Hq as [Hr Hq].
    apply elem_of_prefixes in Hq. by destruct (Hnone q Hq).
  - intros Hready (q & Hq & Hr).
    assert (0 < sends_to ch (publish r v tps).2) as Hpos.
    { rewrite publish_sends_to.
      assert (q ∈ filter (λ q, registered r q ch) (prefixes tps)) as Hin.
      { apply list_elem_of_filter. split; [done|]. by apply elem_of_prefixes. }
      destruct (filter _ _); [by apply elem_of_nil in Hin|simpl; lia]. }
    exists (sends_to ch (publish r v tps).2 `min` ready c). split; [lia|].
    unfold after_sends. by rewrite (Hopen q ch c Hq Hr Hw).
Qed.

(** C10 (amended): deliveries are not deduplicated: a handle registered at
    [k] distinct prefixes of the published path gets at most [k] sends for
    one publish, and exactly [k] when no handle registered at a prefix of
    the path is a closed channel, so that no send panics. *)
Theorem publish_attempt_per_registration (r : router) (v : T)
    (tps : list string) (ch : handle) (qs : list (list string))
    (w : gmap handle chan) :
  NoDup qs →
  (∀ q, q ∈ qs ↔ q `prefix_of` tps ∧ registered r q ch) →
  sends_to ch (performed w (publish r v tps).2) ≤ length qs ∧
  (no_closed_subscriber r tps w →
   sends_to ch (performed w (publish r v tps).2) = length qs).
Proof.
  intros Hnd Hqs.
  assert (sends_to ch (publish r v tps).2 = length qs) as Hall.
  { rewrite publish_sends_to. apply Permutation_length.
    apply NoDup_Permutation; [|done|].
    - apply NoDup_filter, NoDup_prefixes.
    - intros q. rewrite list_elem_of_filter, elem_of_prefixes, Hqs. tauto. }
  split.
  - rewrite <-Hall. apply performed_sends_to.
  - intros Hopen. destruct (publish_runs r v tps w Hopen) as (w' & _ & -> & _).
    done.
Qed.

(** * Further statements that depend on the channels *)

(** X9: when no handle registered at a prefix of the published path is a
    closed channel after a subscribe of a handle at a path, successful or
    not, every publish at that path or below it sends to the handle; a
    successful subscribe adds exactly one send to the handle for such a
    publish and changes the sends of no other publish and no other
    handle. *)
Theorem subscribe_then_publish (r : router) (ch : handle)
    (topic : list string) (v : T) (tps : list string)
    (w : gmap handle chan) :
  no_closed_subscriber (subscribe r ch topic).1 tps w →
  (topic `prefix_of` tps →
   Send ch v ∈ performed w (publish (subscribe r ch topic).1 v tps).2) ∧
  (¬ registered r topic ch →
   ∀ c, sends_to c (performed w (publish (subscribe r ch topic).1 v tps).2) =
        sends_to c (performed w (publish r v tps).2) +
        (if decide (c = ch ∧ topic `prefix_of` tps) then 1 else 0)).
Proof.
  intros Hopen.
  assert (no_closed_subscriber r tps w) as Hopen0.
  { apply (no_closed_subscriber_fewer (subscribe r ch topic).1); [|done].
    intros q c Hr. apply subscribe_registered. by left. }
  destruct (publish_runs _ v tps w Hopen) as (w1 & _ & -> & _).
  destruct (publish_runs _ v tps w Hopen0) as (w0 & _ & -> & _).
  split.
  - intros Hp. apply elem_of_publish. split; [done|].
    exists topic. split; [done|]. apply subscribe_registers.
  - intros Hreg c. apply publish_sends_to_added; [done|].
    intros q c'. apply subscribe_registered.
Qed.

(** X10: when no handle registered at a prefix of the published path is a
    closed channel, unsubscribing a registered handle at a path takes away
    exactly one send to it from every publish at that path or below, and
    changes the sends of no other publish and no other handle. *)
Theorem unsubscribe_then_publish (r : router) (ch : handle)
    (topic : list string) (v : T) (tps : list string) (c : handle)
    (w : gmap handle chan) :
  registered r topic ch → no_closed_subscriber r tps w →
  sends_to c (performed w (publish r v tps).2) =
  sends_to c (performed w (publish (unsubscribe r ch topic).1 v tps).2) +
  (if decide (c = ch ∧ topic `prefix_of` tps) then 1 else 0).
Proof.
  intros Hreg Hopen.
  assert (no_closed_subscriber (unsubscribe r ch topic).1 tps w) as Hopen1.
  { apply (no_closed_subscriber_fewer r); [|done].
    intros q c'. rewrite unsubscribe_registered. tauto. }
  destruct (publish_runs _ v tps w Hopen) as (w0 & _ & -> & _).
  destruct (publish_runs _ v tps w Hopen1) as (w1 & _ & -> & _).
  apply publish_sends_to_added.
  - rewrite unsubscribe_registered. naive_solver.
  - intros q c'. rewrite unsubscribe_registered. split.
    + intros Hr. destruct (decide (q = topic ∧ c' = ch)); [by right|by left].
    + intros [[Hr _]|[-> ->]]; done.
Qed.


End Pubsub.

(** * The statements at the sample router *)

Lemma subscribe_duplicate_iff_witness :
  registered sample ["a"] 2 ∧ ¬ registered sample ["c"] 2 ∧
  (subscribe sample 2 ["a"]).2 = Some DuplicateSubscription ∧
  (subscribe sample 2 ["c"]).2 = None.
Proof.
  assert (registered sample ["a"] 2) as Ha.
  { apply (bool_decide_unpack _). vm_compute. exact I. }
  assert (¬ registered sample ["c"] 2) as Hc.
  { apply (bool_decide_unpack _). vm_compute. exact I. }
  split; [exact Ha|]. split; [exact Hc|]. split.
  - exact (proj1 (subscribe_duplicate_iff sample 2 ["a"]) Ha).
  - refine (proj1 (proj2 (proj2 (subscribe_duplicate_iff sample 2 ["c"])))
              ["a"] _ Ha Hc).
    discriminate.
Defined.

Lemma unsubscribe_total_idempotent_witness :
  node_at sample ["z"] = None ∧
  unsubscribe (T:=nat) sample 1 ["z"] = (sample, []) ∧
  unsubscribe (T:=nat) sample 3 ["a"] = (sample, []).
Proof.
  assert (node_at sample ["z"] = None) as Hz by reflexivity.
  split; [exact Hz|]. split.
  - exact (proj1 (unsubscribe_total_idempotent (T:=nat) sample 1 ["z"]) Hz).
  - refine (proj1 (proj2 (unsubscribe_total_idempotent (T:=nat) sample 3 ["a"]))
              (Router {[2]} {[ "b" := Router {[1; 3]} ∅ ]}) _ _).
    + reflexivity.
    + apply (bool_decide_unpack _). vm_compute. exact I.
Defined.

(** After handle 1 leaves [c] the node at [c] has no subscriber and is
    still there. *)
Lemma nodes_never_destroyed_witness :
  is_Some (node_at sample ["c"]) ∧
  is_Some (node_at (serve_all (T:=nat) sample [CmdUnsubscribe 1 ["c"]]).1 ["c"]).
Proof.
  assert (is_Some (node_at sample ["c"])) as Hc by (eexists; reflexivity).
  split; [exact Hc|].
  exact (proj2 (nodes_never_destroyed (T:=nat) sample [CmdUnsubscribe 1 ["c"]])
           ["c"] Hc).
Defined.

Lemma subscribe_error_atomic_witness :
  (subscribe sample 2 ["a"]).2 = Some DuplicateSubscription ∧
  (subscribe sample 2 ["a"]).1 = sample.
Proof.
  assert ((subscribe sample 2 ["a"]).2 = Some DuplicateSubscription) as He
    by (vm_compute; reflexivity).
  split; [exact He|].
  exact (subscribe_error_atomic sample 2 ["a"] DuplicateSubscription He).
Defined.

(** * The further statements at the sample router *)

Lemma subscribe_unsubscribe_round_trip_witness :
  ¬ registered sample ["c"] 2 ∧
  (unsubscribe (T:=nat) (subscribe sample 2 ["c"]).1 2 ["c"]).1 = sample.
Proof.
  assert (¬ registered sample ["c"] 2) as Hc.
  { apply (bool_decide_unpack _). vm_compute. exact I. }
  split; [exact Hc|].
  apply (proj1 (proj2 (subscribe_unsubscribe_round_trip (T:=nat)
                         sample 2 ["c"] Hc))).
  eexists. reflexivity.
Defined.

Lemma unsubscribe_subscribe_round_trip_witness :
  registered sample ["a"] 2 ∧
  subscribe (unsubscribe (T:=nat) sample 2 ["a"]).1 2 ["a"] = (sample, None).
Proof.
  assert (registered sample ["a"] 2) as Ha.
  { apply (bool_decide_unpack _). vm_compute. exact I. }
  split; [exact Ha|].
  exact (unsubscribe_subscribe_round_trip (T:=nat) sample 2 ["a"] Ha).
Defined.

Lemma subscribe_order_irrelevant_witness :
  (subscribe (subscribe sample 3 ["c"]).1 2 ["a"]).2 =
  (subscribe sample 2 ["a"]).2.
Proof.
  apply (proj2 (subscribe_order_irrelevant sample 3 2 ["c"] ["a"])).
  intros [Hp _]. discriminate Hp.
Defined.

Lemma publish_below_missing_node_same_witness :
  node_at sample ["z"] = None ∧
  publish sample 7 (["z"] ++ ["y"]) = publish sample 7 ["z"].
Proof.
  assert (node_at sample ["z"] = None) as Hz by reflexivity.
  split; [exact Hz|].
  exact (publish_below_missing_node_same sample 7 ["z"] ["y"] Hz).
Defined.

Lemma shutdown_closes_channels_witness :
  ∃ w', exec ({[1 := Chan [] 0 false; 2 := Chan [5] 1 false;
                3 := Chan [] 2 false]} : gmap handle (@chan nat))
             (shutdown sample) = Some w' ∧
        w' !! 2 = Some (Chan [5] 1 true).
Proof.
  destruct (shutdown_closes_channels sample
              ({[1 := Chan [] 0 false; 2 := Chan [5] 1 false;
                 3 := Chan [] 2 false]} : gmap handle (@chan nat)))
    as (w' & He & Hin & _).
  { intros path ch Hr.
    assert (ch ∈ all_handles sample) as Hin by (apply elem_of_all_handles; eauto).
    assert (all_handles sample = {[1; 2; 3]}) as Heq by (vm_compute; reflexivity).
    rewrite Heq in Hin.
    apply elem_of_union in Hin as [Hin|Hin];
      [apply elem_of_union in Hin as [Hin|Hin]|];
      apply elem_of_singleton in Hin as ->; eexists; split; reflexivity. }
  exists w'. split; [exact He|].
  destruct (Hin ["a"] 2) as (c & Hw & Hw').
  { apply (bool_decide_unpack _). vm_compute. exact I. }
  injection Hw as <-. exact Hw'.
Defined.

Lemma shutdown_panics_on_unusable_witness :
  registered sample ["a"] 2 ∧
  exec (∅ : gmap handle (@chan nat)) (shutdown sample) = None.
Proof.
  assert (registered sample ["a"] 2) as Ha.
  { apply (bool_decide_unpack _). vm_compute. exact I. }
  split; [exact Ha|].
  apply (shutdown_panics_on_unusable sample ∅ ["a"] 2 Ha).
  intros (c & Hw & _). rewrite lookup_empty in Hw. discriminate Hw.
Defined.

Lemma publish_panics_on_closed_witness :
  registered sample [] 1 ∧
  exec ({[1 := Chan [] 3 true]} : gmap handle (@chan nat))
       (publish sample 7 ["a"]).2 = None.
Proof.
  assert (registered sample [] 1) as Hroot.
  { apply (bool_decide_unpack _). vm_compute. exact I. }
  split; [exact Hroot|].
  apply (publish_panics_on_closed sample 7 ["a"] [] 1 _ (Chan [] 3 true)).
  - apply prefix_nil.
  - exact Hroot.
  - reflexivity.
  - reflexivity.
Defined.

Lemma process_touches_only_subscribed_witness :
  Send 1 7 ∈ Process [CmdSubscribe 1 ["a"]; CmdPublish 7 ["a"; "b"]] ∧
  ∃ topic, CmdSubscribe 1 topic ∈
             [CmdSubscribe (T:=nat) 1 ["a"]; CmdPublish 7 ["a"; "b"]].
Proof.
  assert (Send 1 7 ∈ Process [CmdSubscribe 1 ["a"]; CmdPublish 7 ["a"; "b"]])
    as Hin.
  { assert (Process [CmdSubscribe 1 ["a"]; CmdPublish 7 ["a"; "b"]] =
            [Send 1 7; Close 1]) as -> by (vm_compute; reflexivity).
    apply elem_of_cons. left. reflexivity. }
  split; [exact Hin|].
  exact (process_touches_only_subscribed _ (Send 1 7) Hin).
Defined.

Lemma unsubscribed_handle_never_closed_witness :
  closes_of 1 (shutdown (T:=nat)
                 (unsubscribe (T:=nat) (subscribe new_router 1 ["a"]).1 1 ["a"]).1)
  = 0.
Proof.
  apply (unsubscribed_handle_never_closed (T:=nat) new_router 1 ["a"]).
  intros path. apply new_router_unregistered.
Defined.

(** * The statements that depend on the channels, at the sample router *)

(** Handle 1, at the root, has been closed by its owner: the publish at [a]
    panics at the root and handle 2, registered at [a], is offered
    nothing. *)
Lemma publish_offers_iff_prefix_counterexample :
  registered sample ["a"] 2 ∧ ["a"] `prefix_of` ["a"] ∧
  ¬ Send 2 7 ∈ performed sample_closed (publish sample 7 ["a"]).2.
Proof.
  split; [|split].
  - apply (bool_decide_unpack _). vm_compute. exact I.
  - done.
  - assert (performed sample_closed (publish sample 7 ["a"]).2 = []) as ->
      by (vm_compute; reflexivity).
    apply not_elem_of_nil.
Qed.

Lemma publish_offers_iff_prefix_witness :
  no_closed_subscriber sample ["a"] (sample_open (T:=nat)) ∧
  Send 2 7 ∈ performed sample_open (publish sample 7 ["a"]).2.
Proof.
  assert (no_closed_subscriber sample ["a"] (sample_open (T:=nat))) as Hopen.
  { apply no_closed_subscriber_open.
    apply (bool_decide_unpack _). vm_compute. exact I. }
  split; [exact Hopen|].
  apply (proj1 (proj2 (proj2 (publish_offers_iff_prefix sample 7 ["a"]
                                sample_open 2)) Hopen) ["a"]).
  - exists []. reflexivity.
  - apply (bool_decide_unpack _). vm_compute. exact I.
Defined.



(** Handle 2 is registered at [a] and can take a value, but handle 1 at the
    root is closed: the publish does not complete and nothing is
    delivered. *)
Lemma publish_best_effort_counterexample :
  registered sample ["a"] 2 ∧
  sample_closed !! 2 = Some (Chan (T:=nat) [] 1 false) ∧
  exec sample_closed (publish sample 7 ["a"]).2 = None ∧
  performed sample_closed (publish sample 7 ["a"]).2 = [].
Proof.
  split; [|split; [|split]].
  - apply (bool_decide_unpack _). vm_compute. exact I.
  - reflexivity.
  - vm_compute. reflexivity.
  - vm_compute. reflexivity.
Qed.

(** Handle 1 (at the root) has no room, handle 2 (at [a]) has room for one
    value. *)
Lemma publish_best_effort_witness :
  no_closed_subscriber sample ["a"] (sample_open (T:=nat)) ∧
  ∃ w', exec sample_open (publish sample 7 ["a"]).2 = Some w' ∧
        w' !! 1 = Some (Chan [] 0 false) ∧
        ∃ k, 0 < k ∧ w' !! 2 = Some (Chan (replicate k 7) (1 - k) false).
Proof.
  assert (no_closed_subscriber sample ["a"] (sample_open (T:=nat))) as Hopen.
  { apply no_closed_subscriber_open.
    apply (bool_decide_unpack _). vm_compute. exact I. }
  split; [exact Hopen|].
  destruct (publish_best_effort sample 7 ["a"] _ Hopen) as (w' & He & Hw').
  exists w'. split; [exact He|]. split.
  - apply (proj1 (Hw' 1 (Chan [] 0 false) eq_refl)). reflexivity.
  - apply (proj2 (proj2 (Hw' 2 (Chan [] 1 false) eq_refl))).
    + simpl. lia.
    + exists ["a"]. split; [exists []; reflexivity|].
      apply (bool_decide_unpack _). vm_compute. exact I.
Defined.

(** Handle 3 is registered at one prefix of [a/b], the path itself, and
    gets no send: the publish panics at the root, where handle 1 is
    closed. *)
Lemma publish_attempt_per_registration_counterexample :
  NoDup [["a"; "b"]] ∧
  (∀ q, q ∈ [["a"; "b"]] ↔ q `prefix_of` ["a"; "b"] ∧ registered sample q 3) ∧
  sends_to 3 (performed sample_closed (publish sample 7 ["a"; "b"]).2) ≠
  length [["a"; "b"]].
Proof.
  split; [apply NoDup_singleton|]. split.
  - intros q. split.
    + intros Hq. apply list_elem_of_singleton in Hq as ->.
      split; [done|]. apply (bool_decide_unpack _). vm_compute. exact I.
    + intros [Hq Hr]. apply elem_of_prefixes in Hq. simpl in Hq.
      apply elem_of_cons in Hq as [->|Hq].
      { exfalso. revert Hr. apply (bool_decide_unpack _). vm_compute. exact I. }
      apply elem_of_cons in Hq as [->|Hq].
      { exfalso. revert Hr. apply (bool_decide_unpack _). vm_compute. exact I. }
      done.
  - vm_compute. discriminate.
Qed.

(** Handle 1 is registered at two prefixes of [a/b]: the root and [a/b]. *)
Lemma publish_attempt_per_registration_witness :
  no_closed_subscriber sample ["a"; "b"] (sample_open (T:=nat)) ∧
  sends_to 1 (performed sample_open (publish sample 7 ["a"; "b"]).2) = 2.
Proof.
  assert (no_closed_subscriber sample ["a"; "b"] (sample_open (T:=nat)))
    as Hopen.
  { apply no_closed_subscriber_open.
    apply (bool_decide_unpack _). vm_compute. exact I. }
  split; [exact Hopen|].
  refine (proj2 (publish_attempt_per_registration sample 7 ["a"; "b"] 1
                   [[]; ["a"; "b"]] sample_open _ _) Hopen).
  - apply (bool_decide_unpack _). vm_compute. exact I.
  - intros q. split.
    + intros Hq. apply elem_of_cons in Hq as [->|Hq].
      { split; [apply prefix_nil|].
        apply (bool_decide_unpack _). vm_compute. exact I. }
      apply list_elem_of_singleton in Hq as ->.
      split; [done|]. apply (bool_decide_unpack _). vm_compute. exact I.
    + intros [Hq Hr]. apply elem_of_prefixes in Hq. simpl in Hq.
      apply elem_of_cons in Hq as [->|Hq]; [apply elem_of_cons; by left|].
      apply elem_of_cons in Hq as [->|Hq].
      { exfalso. revert Hr. apply (bool_decide_unpack _). vm_compute. exact I. }
      apply list_elem_of_singleton in Hq as ->.
      apply elem_of_cons; right. apply elem_of_cons; by left.
Defined.

Lemma subscribe_then_publish_witness :
  no_closed_subscriber (subscribe sample 2 ["c"]).1 ["c"; "d"]
    (sample_open (T:=nat)) ∧
  Send 2 7 ∈
    performed sample_open (publish (subscribe sample 2 ["c"]).1 7 ["c"; "d"]).2.
Proof.
  assert (no_closed_subscriber (subscribe sample 2 ["c"]).1 ["c"; "d"]
            (sample_open (T:=nat))) as Hopen.
  { apply no_closed_subscriber_open.
    apply (bool_decide_unpack _). vm_compute. exact I. }
  split; [exact Hopen|].
  apply (proj1 (subscribe_then_publish sample 2 ["c"] 7 ["c"; "d"]
                  sample_open Hopen)).
  exists ["d"]. reflexivity.
Defined.

Lemma unsubscribe_then_publish_witness :
  registered sample ["a"] 2 ∧
  no_closed_subscriber sample ["a"; "b"] (sample_open (T:=nat)) ∧
  sends_to 2 (performed sample_open (publish sample 7 ["a"; "b"]).2) =
  sends_to 2 (performed sample_open
                (publish (unsubscribe (T:=nat) sample 2 ["a"]).1 7 ["a"; "b"]).2) +
  (if decide (2 = 2 ∧ ["a"] `prefix_of` ["a"; "b"]) then 1 else 0).
Proof.
  assert (registered sample ["a"] 2) as Ha.
  { apply (bool_decide_unpack _). vm_compute. exact I. }
  assert (no_closed_subscriber sample ["a"; "b"] (sample_open (T:=nat)))
    as Hopen.
  { apply no_closed_subscriber_open.
    apply (bool_decide_unpack _). vm_compute. exact I. }
  split; [exact Ha|]. split; [exact Hopen|].
  exact (unsubscribe_then_publish sample 2 ["a"] 7 ["a"; "b"] 2 sample_open
           Ha Hopen).
Defined.

